(** * STL topological sorting adapters (stl_topological_sorter.hpp)

    A shallow embedding of [snicholls::topological_sorter] and of the
    container adapters built on it, with the properties of the ordering
    engine: the adjacency map and its auto-vivifying look-ups, the
    depth-first traversal, and the merge of the linearised order with the
    contents of a container. *)

From Stdlib Require Import String Ascii OrdersEx.
From Stdlib Require Import Relations RelationClasses.
From Stdlib Require Import Bool Arith Lia List Permutation.
Import ListNotations.

Set Implicit Arguments.

(** ** Keys

    The templates are instantiated at a [Key] compared with [std::less<Key>],
    which the standard containers require to be a strict order; two keys are
    the same key when neither is less than the other. *)

Class KeyOrder (Key : Type) : Type := {
  key_lt : Key -> Key -> bool;
  key_lt_irrefl : forall a, key_lt a a = false;
  key_lt_trans : forall a b c,
      key_lt a b = true -> key_lt b c = true -> key_lt a c = true;
  key_lt_total : forall a b,
      key_lt a b = false -> key_lt b a = false -> a = b
}.

Definition key_eqb {Key} `{KeyOrder Key} (a b : Key) : bool :=
  negb (key_lt a b) && negb (key_lt b a).

(** ** std::map

    A [std::map<Key,V>] is kept as the list of its nodes in iteration order,
    that is by increasing key. *)

Section StdMap.
Context {Key : Type} `{KeyOrder Key} {V : Type}.

Definition std_map : Type := list (Key * V).

Definition keys (m : std_map) : list Key := map fst m.

(** [m.find(k)], as the mapped value when there is one. *)
Fixpoint find (k : Key) (m : std_map) : option V :=
  match m with
  | [] => None
  | (k', v) :: m' => if key_eqb k k' then Some v else find k m'
  end.

(** [m.insert_or_assign(k, v)]: the node is placed by key order. *)
Fixpoint insert (k : Key) (v : V) (m : std_map) : std_map :=
  match m with
  | [] => [(k, v)]
  | (k', v') :: m' =>
      if key_lt k k' then (k, v) :: m
      else if key_lt k' k then (k', v') :: insert k v m'
      else (k, v) :: m'
  end.

(** [m[k]]: a missing key is first inserted with the value-initialised
    [dflt]; the mapped value and the map after the look-up are returned. *)
Definition index (dflt : V) (k : Key) (m : std_map) : V * std_map :=
  match find k m with
  | Some v => (v, m)
  | None => (dflt, insert k dflt m)
  end.

(** [m.begin()], as the key of the first node; [None] is [m.end()]. *)
Definition begin (m : std_map) : option Key :=
  match m with
  | [] => None
  | (k, _) :: _ => Some k
  end.

(** [++it] for an iterator on the node of key [k]: the first node of the
    map, as it is at that moment, whose key is greater than [k]. *)
Fixpoint next (k : Key) (m : std_map) : option Key :=
  match m with
  | [] => None
  | (k', _) :: m' => if key_lt k k' then Some k' else next k m'
  end.

(** [m.at(k)] throws [std::out_of_range] on a missing key. *)
Definition at_ (k : Key) (m : std_map) : option V := find k m.

End StdMap.

Arguments std_map Key V : clear implicits.

(** ** topological_sorter *)

Section Sorter.
Context {Key : Type} `{KeyOrder Key}.

Definition stack_type : Type := list Key.          (* head = top *)
Definition visited_type : Type := std_map Key bool.
Definition adjacency_type : Type := std_map Key (list Key).

(** [adj[v].push_back(w)] *)
Definition precede (v w : Key) (adj : adjacency_type) : adjacency_type :=
  let (l, adj1) := index [] v adj in
  insert v (l ++ [w]) adj1.

(** The sorter's member [adj] together with the two objects that
    [sort_util] receives by reference. *)
Record state : Type := State {
  st_adj : adjacency_type;
  st_visited : visited_type;
  st_stack : stack_type
}.

(** The body of the range-for of [sort_util]: [rec] is the recursive
    call, [l] what is left of the vector [adj[v]]. *)
Fixpoint for_successors (rec : Key -> state -> option state)
         (l : list Key) (st : state) : option state :=
  match l with
  | [] => Some st
  | i :: l' =>
      let (b, vis1) := index false i (st_visited st) in
      let st1 := State (st_adj st) vis1 (st_stack st) in
      if negb b then
        match rec i st1 with
        | Some st2 => for_successors rec l' st2
        | None => None
        end
      else for_successors rec l' st1
  end.

(** [sort_util(v, visited, s)]; [fuel] bounds the depth of the recursion,
    [None] is a run that needs more. *)
Fixpoint sort_util (fuel : nat) (v : Key) (st : state) : option state :=
  match fuel with
  | O => None
  | S fuel' =>
      let vis1 := insert v true (st_visited st) in
      let (succs, adj1) := index [] v (st_adj st) in
      match for_successors (sort_util fuel') succs
                           (State adj1 vis1 (st_stack st)) with
      | Some st3 =>
          Some (State (st_adj st3) (st_visited st3) (v :: st_stack st3))
      | None => None
      end
  end.

(** The range-for of [topological_sort] over [adj], which [sort_util]
    extends while the loop runs: [it] is the iterator, [n] bounds the
    number of iterations and [fuel] the depth of each traversal. *)
Fixpoint sort_loop (n fuel : nat) (it : option Key) (st : state)
  : option state :=
  match it with
  | None => Some st
  | Some key =>
      match n with
      | O => None
      | S n' =>
          let (b, vis1) := index false key (st_visited st) in
          let st1 := State (st_adj st) vis1 (st_stack st) in
          match (if negb b then sort_util fuel key st1 else Some st1) with
          | Some st2 => sort_loop n' fuel (next key (st_adj st2)) st2
          | None => None
          end
      end
  end.

Definition topological_sort_fuel (fuel : nat) (adj : adjacency_type)
  : option (adjacency_type * stack_type) :=
  match sort_loop fuel fuel (begin adj) (State adj [] []) with
  | Some st => Some (st_adj st, st_stack st)
  | None => None
  end.

(** Every key met by the traversal is a key of [adj] or an element of one
    of its vectors; their number bounds both loops. *)
Definition vertices (adj : adjacency_type) : list Key :=
  keys adj ++ concat (map snd adj).

(** [topological_sort()]: the new value of the member [adj] and the
    returned stack. *)
Definition topological_sort (adj : adjacency_type)
  : option (adjacency_type * stack_type) :=
  topological_sort_fuel (length (vertices adj)) adj.

(** The graph after the calls [precede(v, w)] for the pairs of [edges], in
    that order, on a new sorter. *)
Definition build (edges : list (Key * Key)) : adjacency_type :=
  fold_left (fun adj e => precede (fst e) (snd e) adj) edges [].

(** The vector a look-up of [k] reads; empty for a key without node. *)
Definition successors (adj : adjacency_type) (k : Key) : list Key :=
  match find k adj with
  | Some l => l
  | None => []
  end.

End Sorter.

Arguments stack_type Key : clear implicits.
Arguments visited_type Key : clear implicits.
Arguments adjacency_type Key : clear implicits.
Arguments state Key : clear implicits.

(** ** The container adapters *)

(** How a call of [sort] ends: with the returned sequence, with the
    [std::out_of_range] that [at] throws, or with a store past the end of
    the result [std::array]. *)
Inductive outcome (R : Type) : Type :=
| Returns (r : R)
| Throws_out_of_range
| Stores_past_end.

Arguments Throws_out_of_range {R}.
Arguments Stores_past_end {R}.

(** An adapter derives from its container and from the sorter. *)
Record adapter (C Key : Type) : Type := Adapter {
  contents : C;
  graph : adjacency_type Key
}.

Section Adapters.
Context {Key : Type} `{KeyOrder Key}.

(** [stack_helper(s, f)]: [f] is called on the top, which is then popped,
    until the stack is empty; [None] is [f] leaving by an exception. *)
Fixpoint stack_helper {A : Type} (f : Key -> A -> option A)
         (s : stack_type Key) (acc : A) : option A :=
  match s with
  | [] => Some acc
  | key :: s' =>
      match f key acc with
      | Some acc' => stack_helper f s' acc'
      | None => None
      end
  end.

(** [std::count(begin(), end(), key)] *)
Definition count (key : Key) (c : list Key) : nat :=
  length (filter (key_eqb key) c).

(** *** std::map and std::unordered_map

    Both [sort] members have the same body.  The container is given by its
    nodes in iteration order: by key for [std::map], in the order of the
    hash table for [std::unordered_map]. *)
Section Associative.
Context {T : Type}.

Definition associative := adapter (std_map Key T) Key.
Definition associative_sort_type : Type := list (Key * T).

Definition copy_at (c : std_map Key T) (key : Key)
           (acc : associative_sort_type * visited_type Key)
  : option (associative_sort_type * visited_type Key) :=
  let (result, copied) := acc in
  match at_ key c with
  | Some value => Some (result ++ [(key, value)], insert key true copied)
  | None => None
  end.

Definition copy_rest (acc : associative_sort_type * visited_type Key)
           (node : Key * T) : associative_sort_type * visited_type Key :=
  let (result, copied) := acc in
  let (key, value) := node in
  let (b, copied1) := index false key copied in
  if negb b then (result ++ [(key, value)], insert key true copied1)
  else (result, copied1).

Definition associative_merge (s : stack_type Key) (c : std_map Key T)
  : outcome associative_sort_type :=
  match stack_helper (copy_at c) s ([], []) with
  | Some acc => Returns (fst (fold_left copy_rest c acc))
  | None => Throws_out_of_range
  end.

Definition associative_sort (a : associative)
  : option (associative * outcome associative_sort_type) :=
  match topological_sort (graph a) with
  | Some (adj', s) =>
      Some (Adapter (contents a) adj', associative_merge s (contents a))
  | None => None
  end.

Definition topological_sort_map_sort := associative_sort.
Definition topological_sort_unordered_map_sort := associative_sort.
End Associative.

(** *** std::vector *)

Definition topological_sort_vector := adapter (list Key) Key.
Definition vector_sort_type : Type := list Key.

Definition copy_count (c : list Key) (key : Key)
           (acc : vector_sort_type * visited_type Key)
  : option (vector_sort_type * visited_type Key) :=
  let (result, copied) := acc in
  let n := count key c in
  Some (result ++ repeat key n, insert key true copied).

Definition copy_rest_count (c : list Key)
           (acc : vector_sort_type * visited_type Key) (key : Key)
  : vector_sort_type * visited_type Key :=
  let (result, copied) := acc in
  let (b, copied1) := index false key copied in
  if negb b then
    let copied2 := insert key true copied1 in
    let n := count key c in
    (result ++ repeat key n, copied2)
  else (result, copied1).

Definition vector_merge (s : stack_type Key) (c : list Key)
  : outcome vector_sort_type :=
  match stack_helper (copy_count c) s ([], []) with
  | Some acc => Returns (fst (fold_left (copy_rest_count c) c acc))
  | None => Throws_out_of_range
  end.

Definition topological_sort_vector_sort (a : topological_sort_vector)
  : option (topological_sort_vector * outcome vector_sort_type) :=
  match topological_sort (graph a) with
  | Some (adj', s) =>
      Some (Adapter (contents a) adj', vector_merge s (contents a))
  | None => None
  end.

(** *** std::array

    The container holds [N = length (contents a)] elements and the result
    is a [std::array] of the same [N], whose elements start as the
    default-initialised [dflt]. *)

Definition topological_sort_array := adapter (list Key) Key.

Record array_acc : Type := ArrayAcc {
  acc_result : list Key;
  acc_index : nat;
  acc_copied : visited_type Key
}.

(** [result[index] = key]; the subscript is not checked. *)
Fixpoint store (result : list Key) (index : nat) (key : Key)
  : option (list Key) :=
  match result, index with
  | [], _ => None
  | _ :: r, O => Some (key :: r)
  | x :: r, S i =>
      match store r i key with
      | Some r' => Some (x :: r')
      | None => None
      end
  end.

(** [for (auto i{0}; i<n; ++i) result[index++] = key;] *)
Fixpoint store_n (n : nat) (key : Key) (result : list Key) (index : nat)
  : option (list Key * nat) :=
  match n with
  | O => Some (result, index)
  | S n' =>
      match store result index key with
      | Some result' => store_n n' key result' (S index)
      | None => None
      end
  end.

Definition store_count (c : list Key) (key : Key) (acc : array_acc)
  : option array_acc :=
  let n := count key c in
  match store_n n key (acc_result acc) (acc_index acc) with
  | Some (result, index) =>
      Some (ArrayAcc result index (insert key true (acc_copied acc)))
  | None => None
  end.

Definition store_rest_count (c : list Key) (acc : option array_acc)
           (key : Key) : option array_acc :=
  match acc with
  | None => None
  | Some acc =>
      let (b, copied1) := index false key (acc_copied acc) in
      if negb b then
        let copied2 := insert key true copied1 in
        let n := count key c in
        match store_n n key (acc_result acc) (acc_index acc) with
        | Some (result, index) => Some (ArrayAcc result index copied2)
        | None => None
        end
      else Some (ArrayAcc (acc_result acc) (acc_index acc) copied1)
  end.

Definition array_merge (dflt : Key) (s : stack_type Key) (c : list Key)
  : outcome (list Key) :=
  match stack_helper (store_count c) s
                     (ArrayAcc (repeat dflt (length c)) 0 []) with
  | Some acc =>
      match fold_left (store_rest_count c) c (Some acc) with
      | Some acc' => Returns (acc_result acc')
      | None => Stores_past_end
      end
  | None => Stores_past_end
  end.

Definition topological_sort_array_sort (dflt : Key)
           (a : topological_sort_array)
  : option (topological_sort_array * outcome (list Key)) :=
  match topological_sort (graph a) with
  | Some (adj', s) =>
      Some (Adapter (contents a) adj', array_merge dflt s (contents a))
  | None => None
  end.

End Adapters.

(** ** Keys of the examples: [std::string] *)

Definition string_lt (a b : string) : bool :=
  match String_as_OT.compare a b with
  | Lt => true
  | _ => false
  end.

#[export] Instance string_KeyOrder : KeyOrder string.
Proof.
  refine (@Build_KeyOrder string string_lt _ _ _).
  - intro a. unfold string_lt.
    destruct (String_as_OT.compare_spec a a) as [_ | Hlt | Hlt]; auto.
    exfalso. exact (StrictOrder_Irreflexive a Hlt).
  - intros a b c. unfold string_lt.
    destruct (String_as_OT.compare a b) eqn:Hab; try discriminate.
    destruct (String_as_OT.compare b c) eqn:Hbc; try discriminate.
    intros _ _.
    assert (Hac : String_as_OT.lt a c)
      by (exact (StrictOrder_Transitive a b c Hab Hbc)).
    unfold String_as_OT.lt in Hac. now rewrite Hac.
  - intros a b. unfold string_lt.
    destruct (String_as_OT.compare_spec a b) as [Heq | Hlt | Hgt].
    + intros _ _. exact Heq.
    + discriminate.
    + unfold String_as_OT.lt in Hgt. rewrite Hgt. discriminate.
Defined.

Open Scope string_scope.
Open Scope list_scope.

(** The edges declared by every example of main.cpp. *)
Definition scenario_edges : list (string * string) :=
  [("F", "C"); ("F", "A"); ("E", "A"); ("E", "B"); ("C", "D"); ("D", "B")].

(** The contents of the vector of [STLVectorExample] at its first [sort]. *)
Definition scenario_vector : list string :=
  ["A"; "A"; "A"; "B"; "B"; "C"; "C"; "D"; "D"; "E"; "E"; "F"; "F"; "F"].

(** The contents of the map of [STLMapExample]. *)
Definition scenario_map : std_map string nat :=
  [("A", 0); ("B", 1); ("C", 2); ("D", 3); ("E", 4); ("F", 5);
   ("X", 100); ("Y", 101); ("Z", 102)].

(** A rank that grows along each of the six edges. *)
Definition scenario_rank (x : string) : nat :=
  if String.eqb x "F" then 0
  else if String.eqb x "E" then 1
  else if String.eqb x "A" then 2
  else if String.eqb x "C" then 3
  else if String.eqb x "D" then 4
  else 5.

(** ** Keys of the second vector example: [int] *)

#[export] Instance nat_KeyOrder : KeyOrder nat.
Proof.
  refine (@Build_KeyOrder nat Nat.ltb _ _ _).
  - intro a. apply Nat.ltb_irrefl.
  - intros a b c Hab Hbc. apply Nat.ltb_lt in Hab, Hbc.
    apply Nat.ltb_lt. lia.
  - intros a b Hab Hba. apply Nat.ltb_ge in Hab, Hba. lia.
Defined.

(** The vector [g3] of [STLVectorExample] and its edges. *)
Definition example_ints : list nat := [0; 1; 2; 3; 4; 5; 6; 7; 8; 9].

Definition example_int_edges : list (nat * nat) :=
  [(9, 0); (8, 1); (7, 2); (6, 3); (5, 4)].

(** The array of [STLArrayExample]. *)
Definition example_array : list string :=
  ["A"; "B"; "C"; "D"; "E"; "F"; "X"; "Y"; "Z"].

(** * Specification *)

(** ** The traversal *)

Section Vocabulary.
Context {Key : Type} `{KeyOrder Key}.

(** The nodes of a map are in increasing key order. *)
Definition sorted {V : Type} (m : std_map Key V) : Prop :=
  Sorted.StronglySorted (fun a b => key_lt a b = true) (keys m).

(** What [visited[k]] reads: a key without node reads as [false]. *)
Definition is_visited (vis : visited_type Key) (k : Key) : bool :=
  match find k vis with
  | Some b => b
  | None => false
  end.

Definition seen (st : state Key) (k : Key) : bool :=
  is_visited (st_visited st) k.

(** A visited key that is not yet on the stack is a call in progress. *)
Definition in_progress (st : state Key) (g : Key) : Prop :=
  seen st g = true /\ ~ In g (st_stack st).

(** The keys not yet visited among a list [V] that holds every successor
    bound the depth of the recursion. *)
Definition pending (V : list Key) (st : state Key) : nat :=
  length (filter (fun k => negb (seen st k)) V).

(** The keys of [adj] before the iterator have been visited. *)
Definition covered (it : option Key) (st : state Key) : Prop :=
  forall x, In x (keys (st_adj st)) ->
            match it with
            | Some k => key_lt x k = true
            | None => True
            end -> seen st x = true.

(** The keys of a list [V] at or after the iterator bound the number of
    iterations left. *)
Definition ahead (V : list Key) (it : option Key) : nat :=
  match it with
  | Some k => length (filter (fun x => negb (key_lt x k)) V)
  | None => 0
  end.

(** [G] is the graph: the vector of successors that a look-up of each key
    reads.  The traversal adds nodes to [adj] but never changes what a
    look-up reads. *)
Variable G : Key -> list Key.

Definition graph_is (st : state Key) : Prop :=
  forall k, successors (st_adj st) k = G k.

Definition edge (v w : Key) : Prop := In w (G v).
Definition path : Key -> Key -> Prop := clos_trans Key edge.
Definition acyclic : Prop := forall v, ~ path v v.

(** Every key of the stack has all its successors below it. *)
Fixpoint topo (s : stack_type Key) : Prop :=
  match s with
  | [] => True
  | x :: s' => (forall y, In y (G x) -> In y s') /\ topo s'
  end.

(** The effect of pushing the keys [news]. *)
Record pushes (news : list Key) (st st' : state Key) : Prop := {
  p_stack : st_stack st' = news ++ st_stack st;
  p_seen : forall k, seen st' k = true <-> seen st k = true \/ In k news;
  p_fresh : forall k, In k news -> seen st k = false;
  p_nodup : NoDup news;
  p_graph : graph_is st';
  p_keys : forall k, In k (keys (st_adj st')) <->
                     In k (keys (st_adj st)) \/ In k news;
  p_sorted : sorted (st_adj st) -> sorted (st_adj st');
  p_done : forall x, In x news ->
                     forall y, In y (G x) -> seen st' y = true;
  p_entries : forall k l, find k (st_adj st') = Some l ->
                          find k (st_adj st) = Some l \/
                          (find k (st_adj st) = None /\ l = []);
  p_same : (forall k, In k news -> In k (keys (st_adj st))) ->
           st_adj st' = st_adj st
}.

(** What a call [sort_util(v, visited, s)] on an unvisited [v] does. *)
Definition call_spec (v : Key) (st st' : state Key) : Prop :=
  exists new,
    pushes (v :: new) st st' /\
    (forall x, In x new -> exists p, In x (G p)) /\
    (acyclic -> topo (st_stack st) ->
     (forall g, in_progress st g -> path g v) -> topo (st_stack st')).

(** What the range-for of [sort_util] over the vector [l] does. *)
Definition loop_spec (l : list Key) (st st' : state Key) : Prop :=
  exists new,
    pushes new st st' /\
    (forall x, In x new -> In x l \/ exists p, In x (G p)) /\
    (forall y, In y l -> seen st' y = true) /\
    (acyclic -> topo (st_stack st) ->
     (forall g, in_progress st g -> forall i, In i l -> path g i) ->
     topo (st_stack st')).

(** [adj0] is the adjacency map when [topological_sort] is called.
    Between two iterations of its loop no call is in progress: the
    visited keys are the keys of the stack. *)
Variable adj0 : adjacency_type Key.

Definition vertex (x : Key) : Prop :=
  In x (keys adj0) \/ exists p, In x (G p).

Record between (st : state Key) : Prop := {
  b_graph : graph_is st;
  b_seen : forall k, seen st k = true <-> In k (st_stack st);
  b_nodup : NoDup (st_stack st);
  b_sorted : sorted (st_adj st);
  b_keys0 : forall k, In k (keys adj0) -> In k (keys (st_adj st));
  b_keys : forall k, In k (keys (st_adj st)) ->
                     In k (keys adj0) \/ In k (st_stack st);
  b_entries : forall k l, find k (st_adj st) = Some l ->
                          find k adj0 = Some l \/
                          (find k adj0 = None /\ l = []);
  b_vertex : forall k, In k (st_stack st) -> vertex k;
  b_done : forall x, In x (st_stack st) ->
                     forall y, In y (G x) -> In y (st_stack st);
  b_topo : acyclic -> topo (st_stack st);
  b_pushed : forall k, In k (st_stack st) -> In k (keys (st_adj st));
  b_same : (forall k, In k (st_stack st) -> In k (keys adj0)) ->
           st_adj st = adj0
}.

End Vocabulary.

(** ** The result of [topological_sort] and of the merge *)

Section Results.
Context {Key : Type} `{KeyOrder Key}.
Implicit Types (adj : adjacency_type Key) (s : stack_type Key)
         (edges : list (Key * Key)).

(** Every successor has a node of its own. *)
Definition closed adj : Prop :=
  forall k y, In y (successors adj k) -> In y (keys adj).

(** What [topological_sort] returns, [s], and leaves in the member
    [adj], [adj'], when called with [adj]. *)
Record linearised adj adj' s : Prop := {
  l_nodup : NoDup s;
  l_vertices : forall x, In x s <-> vertex (successors adj) adj x;
  l_successors : forall k, successors adj' k = successors adj k;
  l_kept : forall k l, find k adj = Some l -> find k adj' = Some l;
  l_added : forall k l, find k adj' = Some l ->
                        find k adj = Some l \/
                        (find k adj = None /\ l = [] /\ In k s);
  l_keys : forall k, In k (keys adj') <-> In k s;
  l_sorted : sorted adj';
  l_same : closed adj -> adj' = adj;
  l_topo : acyclic (successors adj) -> topo (successors adj) s
}.

(** The vertices of the declared graph: the two sides of its edges. *)
Definition is_vertex edges (x : Key) : Prop :=
  exists v w, In (v, w) edges /\ (x = v \/ x = w).

(** [precede(v, w)] was called. *)
Definition declared edges (v w : Key) : Prop := In (v, w) edges.

(** No key precedes itself through declared edges. *)
Definition acyclic_edges edges : Prop :=
  forall v, ~ clos_trans Key (declared edges) v v.

Definition memb (x : Key) (l : list Key) : bool := existsb (key_eqb x) l.

(** All the occurrences in [c] of each key of [ks], key after key. *)
Definition expand (c ks : list Key) : list Key :=
  flat_map (fun k => repeat k (count k c)) ks.

(** The keys of [l] that are not in [done], each once, in the order of
    their first occurrence. *)
Fixpoint firsts (done l : list Key) : list Key :=
  match l with
  | [] => []
  | x :: l' =>
      if memb x done then firsts done l'
      else x :: firsts (done ++ [x]) l'
  end.

Definition first_occurrences (l : list Key) : list Key := firsts [] l.

(** The result array once the keys [ks] have been stored. *)
Definition filled (dflt : Key) (c ks : list Key) (acc : array_acc)
  : Prop :=
  acc_result acc =
    expand c ks ++ repeat dflt (length c - length (expand c ks)) /\
  acc_index acc = length (expand c ks).

(** The node of each key of [s], for the keys that have one. *)
Definition lookup_all {T : Type} (c : std_map Key T) s : list (Key * T) :=
  flat_map (fun k => match find k c with
                     | Some v => [(k, v)]
                     | None => []
                     end) s.

End Results.

(** ** An edge declared twice

    Two runs of the traversal, the second on the graph with the edge
    [(v, w)] declared once more; [G] is the graph of the first run. *)

Section RepeatedEdge.
Context {Key : Type} `{KeyOrder Key}.
Variable G : Key -> list Key.
Variables v w : Key.

(** The graph of the second run. *)
Definition again (k : Key) : list Key :=
  if key_eqb k v then G v ++ [w] else G k.

(** The states of the two runs at the same point: they differ in the
    vector of [v] only. *)
Record alike (stA stB : state Key) : Prop := {
  a_visited : st_visited stB = st_visited stA;
  a_stack : st_stack stB = st_stack stA;
  a_keys : keys (st_adj stB) = keys (st_adj stA);
  a_graph : graph_is G stA;
  a_again : forall k, successors (st_adj stB) k = again k
}.

End RepeatedEdge.

(** * Properties *)

(** ** Keys and std::map *)

Section MapFacts.
Context {Key : Type} `{KeyOrder Key} {V : Type}.
Implicit Types (m : std_map Key V) (k : Key) (v : V).

Lemma key_eqb_eq : forall a b : Key, key_eqb a b = true <-> a = b.
Proof.
  intros a b. unfold key_eqb. split.
  - intro E. apply andb_true_iff in E. destruct E as [E1 E2].
    apply negb_true_iff in E1, E2. now apply key_lt_total.
  - intros ->. now rewrite key_lt_irrefl.
Qed.

Lemma key_eqb_refl : forall a : Key, key_eqb a a = true.
Proof. intro a. now apply key_eqb_eq. Qed.

Lemma key_eqb_neq : forall a b : Key, key_eqb a b = false <-> a <> b.
Proof.
  intros a b. split.
  - intros E ->. rewrite key_eqb_refl in E. discriminate.
  - intro N. destruct (key_eqb a b) eqn:E; auto.
    apply key_eqb_eq in E. contradiction.
Qed.

Lemma key_eq_dec : forall a b : Key, {a = b} + {a <> b}.
Proof.
  intros a b. destruct (key_eqb a b) eqn:E.
  - left. now apply key_eqb_eq.
  - right. now apply key_eqb_neq.
Qed.

Lemma key_lt_neq : forall a b : Key, key_lt a b = true -> a <> b.
Proof. intros a b L ->. rewrite key_lt_irrefl in L. discriminate. Qed.

Lemma key_lt_asym : forall a b : Key,
    key_lt a b = true -> key_lt b a = false.
Proof.
  intros a b L. destruct (key_lt b a) eqn:E; auto.
  pose proof (key_lt_trans _ _ _ L E) as C.
  rewrite key_lt_irrefl in C. discriminate.
Qed.

Lemma find_insert_same : forall k v m, find k (insert k v m) = Some v.
Proof.
  intros k v m. induction m as [|[k' v'] m IH]; simpl.
  - now rewrite key_eqb_refl.
  - destruct (key_lt k k') eqn:L1; simpl.
    + now rewrite key_eqb_refl.
    + destruct (key_lt k' k) eqn:L2; simpl.
      * unfold key_eqb. rewrite L1, L2. simpl. exact IH.
      * now rewrite key_eqb_refl.
Qed.

Lemma find_insert_other : forall k k' v m,
    k <> k' -> find k' (insert k v m) = find k' m.
Proof.
  intros k k' v m N. induction m as [|[k0 v0] m IH]; simpl.
  - apply not_eq_sym in N. apply key_eqb_neq in N. now rewrite N.
  - destruct (key_lt k k0) eqn:L1; simpl.
    + apply not_eq_sym in N. apply key_eqb_neq in N. now rewrite N.
    + destruct (key_lt k0 k) eqn:L2; simpl.
      * now rewrite IH.
      * assert (k = k0) by now apply key_lt_total. subst k0.
        apply not_eq_sym in N. apply key_eqb_neq in N. now rewrite N.
Qed.

Lemma in_keys_insert : forall k v m x,
    In x (keys (insert k v m)) <-> x = k \/ In x (keys m).
Proof.
  intros k v m x. induction m as [|[k0 v0] m IH]; simpl.
  - intuition.
  - destruct (key_lt k k0) eqn:L1; simpl.
    + intuition.
    + destruct (key_lt k0 k) eqn:L2; simpl.
      * unfold keys in IH. rewrite IH. intuition.
      * assert (k = k0) by now apply key_lt_total. subst k0. intuition.
Qed.

Lemma find_in_keys : forall k m, find k m <> None <-> In k (keys m).
Proof.
  intros k m. induction m as [|[k0 v0] m IH]; simpl.
  - intuition.
  - destruct (key_eqb k k0) eqn:E.
    + apply key_eqb_eq in E. subst. split; [auto | discriminate].
    + apply key_eqb_neq in E. unfold keys in IH. rewrite IH.
      split; [auto | intros [C | C]; [congruence | auto]].
Qed.

Lemma find_none_keys : forall k m, find k m = None <-> ~ In k (keys m).
Proof.
  intros k m. rewrite <- find_in_keys.
  destruct (find k m); split; intro P; try congruence; auto.
  exfalso. apply P. discriminate.
Qed.

Lemma find_some_keys : forall k v m, find k m = Some v -> In k (keys m).
Proof. intros k v m E. apply find_in_keys. congruence. Qed.

(** Look-ups through [operator[]]. *)

Lemma index_fst : forall d k m,
    fst (index d k m) = match find k m with Some v => v | None => d end.
Proof. intros d k m. unfold index. now destruct (find k m). Qed.

Lemma find_index_same : forall d k m,
    find k (snd (index d k m)) = Some (fst (index d k m)).
Proof.
  intros d k m. unfold index. destruct (find k m) eqn:E; simpl; auto.
  apply find_insert_same.
Qed.

Lemma find_index_other : forall d k k' m,
    k <> k' -> find k' (snd (index d k m)) = find k' m.
Proof.
  intros d k k' m N. unfold index. destruct (find k m); simpl; auto.
  now apply find_insert_other.
Qed.

Lemma in_keys_index : forall d k m x,
    In x (keys (snd (index d k m))) <-> x = k \/ In x (keys m).
Proof.
  intros d k m x. unfold index. destruct (find k m) eqn:E; simpl.
  - split; auto. intros [-> | I]; auto. now apply find_some_keys in E.
  - apply in_keys_insert.
Qed.

Lemma index_present : forall d k m,
    In k (keys m) -> snd (index d k m) = m.
Proof.
  intros d k m I. unfold index. destruct (find k m) eqn:E; auto.
  apply find_none_keys in E. contradiction.
Qed.

Lemma find_index_entries : forall d k k' m v,
    find k' (snd (index d k m)) = Some v ->
    find k' m = Some v \/ (find k' m = None /\ v = d).
Proof.
  intros d k k' m v. unfold index. destruct (find k m) eqn:E; simpl; auto.
  destruct (key_eq_dec k k') as [<- | N].
  - rewrite find_insert_same. intros [= <-]. auto.
  - rewrite find_insert_other by assumption. auto.
Qed.

(** The nodes of a map stay in increasing key order. *)

Lemma sorted_nil : sorted ([] : std_map Key V).
Proof. constructor. Qed.

Lemma sorted_insert : forall k v m, sorted m -> sorted (insert k v m).
Proof.
  intros k v m. unfold sorted.
  induction m as [|[k0 v0] m IH]; simpl; intro S.
  - repeat constructor.
  - inversion S as [|? ? S' F]; subst.
    destruct (key_lt k k0) eqn:L1; simpl.
    + constructor; [exact S|]. constructor; [exact L1|].
      rewrite Forall_forall in *. intros x I.
      apply key_lt_trans with k0; auto.
    + destruct (key_lt k0 k) eqn:L2; simpl.
      * constructor; [now apply IH|].
        rewrite Forall_forall in *. intros x I.
        apply in_keys_insert in I. destruct I as [-> | I]; auto.
      * assert (k = k0) by now apply key_lt_total. subst k0.
        now constructor.
Qed.

Lemma sorted_index : forall d k m, sorted m -> sorted (snd (index d k m)).
Proof.
  intros d k m S. unfold index. destruct (find k m); simpl; auto.
  now apply sorted_insert.
Qed.

(** The iterator: [begin] is the least key and [next k] the least key
    above [k]. *)

Lemma begin_in : forall m k, begin m = Some k -> In k (keys m).
Proof. intros [|[k0 v0] m] k; simpl; [discriminate|]. intros [= ->]. auto. Qed.

Lemma begin_none : forall m, begin m = None -> m = [].
Proof. intros [|[k0 v0] m]; simpl; [auto | discriminate]. Qed.

Lemma begin_least : forall m k x,
    sorted m -> begin m = Some k -> In x (keys m) -> key_lt x k = false.
Proof.
  intros [|[k0 v0] m] k x S B I; simpl in *; [contradiction|].
  injection B as <-. inversion S as [|? ? S' F]; subst.
  destruct I as [<- | I]; [apply key_lt_irrefl|].
  rewrite Forall_forall in F. apply key_lt_asym. auto.
Qed.

Lemma next_in : forall k m k',
    next k m = Some k' -> In k' (keys m) /\ key_lt k k' = true.
Proof.
  intros k m k'. induction m as [|[k0 v0] m IH]; simpl; [discriminate|].
  destruct (key_lt k k0) eqn:L.
  - intros [= ->]. auto.
  - intro E. apply IH in E. intuition.
Qed.

Lemma next_none : forall k m x,
    next k m = None -> In x (keys m) -> key_lt k x = false.
Proof.
  intros k m x. induction m as [|[k0 v0] m IH]; simpl; [contradiction|].
  destruct (key_lt k k0) eqn:L; [discriminate|].
  intros E [<- | I]; auto.
Qed.

Lemma next_least : forall k m k' x,
    sorted m -> next k m = Some k' -> In x (keys m) ->
    key_lt k x = true -> key_lt x k' = false.
Proof.
  intros k m k' x. unfold sorted.
  induction m as [|[k0 v0] m IH]; simpl; [contradiction|].
  intros S E I L. inversion S as [|? ? S' F]; subst.
  rewrite Forall_forall in F.
  destruct (key_lt k k0) eqn:L0.
  - injection E as <-. destruct I as [<- | I]; [apply key_lt_irrefl|].
    apply key_lt_asym. auto.
  - destruct I as [<- | I]; [congruence|]. now apply IH.
Qed.

End MapFacts.

(** ** The traversal *)

Section Traversal.
Context {Key : Type} `{KeyOrder Key}.

Lemma index_visited_fst : forall vis k,
    fst (index false k vis) = is_visited vis k.
Proof. intros. apply index_fst. Qed.

Lemma index_visited_snd : forall vis k x,
    is_visited (snd (index false k vis)) x = is_visited vis x.
Proof.
  intros vis k x. unfold is_visited.
  destruct (key_eq_dec k x) as [<- | N].
  - rewrite find_index_same, index_fst. now destruct (find k vis).
  - now rewrite find_index_other.
Qed.

Lemma is_visited_insert : forall vis k x,
    is_visited (insert k true vis) x = true <->
    x = k \/ is_visited vis x = true.
Proof.
  intros vis k x. unfold is_visited.
  destruct (key_eq_dec k x) as [<- | N].
  - rewrite find_insert_same. intuition.
  - rewrite find_insert_other by assumption. intuition congruence.
Qed.

Lemma index_successors_fst : forall (adj : adjacency_type Key) k,
    fst (index [] k adj) = successors adj k.
Proof. intros. apply index_fst. Qed.

Lemma index_successors_snd : forall (adj : adjacency_type Key) k x,
    successors (snd (index [] k adj)) x = successors adj x.
Proof.
  intros adj k x. unfold successors.
  destruct (key_eq_dec k x) as [<- | N].
  - rewrite find_index_same, index_fst. now destruct (find k adj).
  - now rewrite find_index_other.
Qed.

(** The functions, one step unfolded. *)

Lemma for_successors_cons : forall rec i l st,
    for_successors rec (i :: l) st =
    let st1 := State (st_adj st) (snd (index false i (st_visited st)))
                     (st_stack st) in
    if seen st i then for_successors rec l st1
    else match rec i st1 with
         | Some st2 => for_successors rec l st2
         | None => None
         end.
Proof.
  intros rec i l st. simpl. unfold seen.
  rewrite <- index_visited_fst.
  destruct (index false i (st_visited st)) as [b vis1]. simpl.
  now destruct b.
Qed.

Lemma sort_util_S : forall fuel v st,
    sort_util (S fuel) v st =
    match for_successors (sort_util fuel) (successors (st_adj st) v)
            (State (snd (index [] v (st_adj st)))
                   (insert v true (st_visited st)) (st_stack st)) with
    | Some st3 =>
        Some (State (st_adj st3) (st_visited st3) (v :: st_stack st3))
    | None => None
    end.
Proof.
  intros fuel v st. simpl. rewrite <- index_successors_fst.
  now destruct (index [] v (st_adj st)) as [succs adj1].
Qed.

Lemma sort_loop_Some : forall n fuel key st,
    sort_loop (S n) fuel (Some key) st =
    let st1 := State (st_adj st) (snd (index false key (st_visited st)))
                     (st_stack st) in
    match (if seen st key then Some st1 else sort_util fuel key st1) with
    | Some st2 => sort_loop n fuel (next key (st_adj st2)) st2
    | None => None
    end.
Proof.
  intros n fuel key st. simpl. unfold seen.
  rewrite <- index_visited_fst.
  destruct (index false key (st_visited st)) as [b vis1]. simpl.
  now destruct b.
Qed.

(** *** What one call does *)

Variable G : Key -> list Key.

Local Abbreviation graph_is := (graph_is G).
Local Abbreviation path := (path G).
Local Abbreviation acyclic := (acyclic G).
Local Abbreviation topo := (topo G).
Local Abbreviation pushes := (pushes G).
Local Abbreviation call_spec := (call_spec G).
Local Abbreviation loop_spec := (loop_spec G).

Lemma pushes_refl : forall st, graph_is st -> pushes [] st st.
Proof.
  intros st Gs. constructor; simpl.
  - reflexivity.
  - intro k. tauto.
  - intros k [].
  - constructor.
  - exact Gs.
  - intro k. tauto.
  - auto.
  - intros x [].
  - auto.
  - auto.
Qed.

Lemma pushes_trans : forall n1 n2 st st1 st2,
    pushes n1 st st1 -> pushes n2 st1 st2 -> pushes (n2 ++ n1) st st2.
Proof.
  intros n1 n2 st st1 st2 P1 P2.
  assert (Hfresh : forall k, In k n2 -> seen st k = false).
  { intros k I. apply (p_fresh P2) in I.
    destruct (seen st k) eqn:E; auto.
    assert (seen st1 k = true) by (apply (p_seen P1); auto). congruence. }
  constructor.
  - rewrite (p_stack P2), (p_stack P1). apply app_assoc.
  - intro k. rewrite (p_seen P2), (p_seen P1), in_app_iff. tauto.
  - intros k I. apply in_app_iff in I. destruct I as [I | I]; auto.
    now apply (p_fresh P1).
  - apply NoDup_app; [apply (p_nodup P2) | apply (p_nodup P1) |].
    intros a I2 I1. apply (p_fresh P2) in I2.
    assert (seen st1 a = true) by (apply (p_seen P1); auto). congruence.
  - apply (p_graph P2).
  - intro k. rewrite (p_keys P2), (p_keys P1), in_app_iff. tauto.
  - intro S. apply (p_sorted P2), (p_sorted P1), S.
  - intros x I y Ey. apply in_app_iff in I. destruct I as [I | I].
    + now apply (p_done P2) with x.
    + apply (p_seen P2). left. now apply (p_done P1) with x.
  - intros k l E. apply (p_entries P2) in E.
    destruct E as [E | [E ->]]; [now apply (p_entries P1)|].
    right. split; auto. apply find_none_keys. apply find_none_keys in E.
    intro I. apply E. apply (p_keys P1). now left.
  - intro K.
    assert (E1 : st_adj st1 = st_adj st)
      by (apply (p_same P1); intros k I; apply K, in_app_iff; now right).
    rewrite <- E1. apply (p_same P2). intros k I. rewrite E1.
    apply K, in_app_iff. now left.
Qed.

(** Reading [visited[i]] may add a node to [visited], nothing else. *)
Lemma pushes_read : forall st i,
    graph_is st ->
    pushes [] st (State (st_adj st) (snd (index false i (st_visited st)))
                        (st_stack st)).
Proof.
  intros st i Gs. constructor; simpl.
  - reflexivity.
  - intro k. unfold seen. simpl. rewrite index_visited_snd. tauto.
  - intros k [].
  - constructor.
  - exact Gs.
  - intro k. tauto.
  - auto.
  - intros x [].
  - auto.
  - auto.
Qed.

Lemma in_progress_pushes : forall news st st' g,
    pushes news st st' -> in_progress st' g -> in_progress st g.
Proof.
  intros news st st' g P [S N]. rewrite (p_stack P) in N.
  rewrite in_app_iff in N. apply (p_seen P) in S.
  split; [destruct S; tauto | tauto].
Qed.

Lemma for_successors_spec :
  forall rec : Key -> state Key -> option (state Key),
    (forall i st st', graph_is st -> seen st i = false ->
                      rec i st = Some st' -> call_spec i st st') ->
    forall l st st',
      graph_is st -> for_successors rec l st = Some st' ->
      loop_spec l st st'.
Proof.
  intros rec Hrec l. induction l as [|i l IH]; intros st st' Gs E.
  - simpl in E. injection E as <-. exists [].
    split; [|split; [|split]].
    + now apply pushes_refl.
    + intros x [].
    + intros y [].
    + auto.
  - rewrite for_successors_cons in E. cbv zeta in E.
    pose proof (pushes_read i Gs) as P1.
    set (st1 := State (st_adj st) (snd (index false i (st_visited st)))
                      (st_stack st)) in *.
    destruct (seen st i) eqn:Si.
    + destruct (IH _ _ (p_graph P1) E) as (new & P & Hn & Hs & Ht).
      exists new. split; [|split; [|split]].
      * rewrite <- (app_nil_r new). exact (pushes_trans P1 P).
      * intros x I. destruct (Hn x I); [left; now right | now right].
      * intros y [<- | I]; [|now apply Hs].
        apply (p_seen P). left. apply (p_seen P1). now left.
      * intros A T Pg. apply Ht; auto.
        intros g Ig j Ij. apply Pg; [|now right].
        exact (in_progress_pushes P1 Ig).
    + assert (S1 : seen st1 i = false).
      { destruct (seen st1 i) eqn:S1; auto.
        apply (p_seen P1) in S1. destruct S1 as [S1 | []]. congruence. }
      destruct (rec i st1) as [st2|] eqn:R; [|discriminate].
      destruct (Hrec _ _ _ (p_graph P1) S1 R) as (ni & Pi & Hni & Hti).
      destruct (IH _ _ (p_graph Pi) E) as (nr & Pr & Hnr & Hsr & Htr).
      exists (nr ++ i :: ni). split; [|split; [|split]].
      * rewrite <- (app_nil_r (nr ++ i :: ni)).
        exact (pushes_trans P1 (pushes_trans Pi Pr)).
      * intros x I. apply in_app_iff in I. destruct I as [I | [<- | I]].
        -- destruct (Hnr x I); [left; now right | now right].
        -- left. now left.
        -- right. now apply Hni.
      * intros y [<- | I]; [|now apply Hsr].
        apply (p_seen Pr). left. apply (p_seen Pi). right. now left.
      * intros A T Pg. apply Htr; auto.
        -- apply Hti; auto. intros g Ig. apply Pg; [|now left].
           exact (in_progress_pushes P1 Ig).
        -- intros g Ig j Ij. apply Pg; [|now right].
           exact (in_progress_pushes P1 (in_progress_pushes Pi Ig)).
Qed.

Lemma sort_util_spec : forall fuel v st st',
    graph_is st -> seen st v = false ->
    sort_util fuel v st = Some st' -> call_spec v st st'.
Proof.
  induction fuel as [|fuel IH]; intros v st st' Gs Sv E; [discriminate|].
  rewrite sort_util_S in E.
  set (st2 := State (snd (index [] v (st_adj st)))
                    (insert v true (st_visited st)) (st_stack st)) in *.
  assert (G2 : graph_is st2).
  { intro k. unfold st2; simpl. rewrite index_successors_snd. apply Gs. }
  assert (S2 : forall k, seen st2 k = true <-> k = v \/ seen st k = true).
  { intro k. unfold seen, st2; simpl. apply is_visited_insert. }
  rewrite Gs in E.
  destruct (for_successors (sort_util fuel) (G v) st2) as [st3|] eqn:L;
    [|discriminate].
  injection E as <-.
  destruct (for_successors_spec (sort_util fuel) IH _ G2 L)
    as (new & P & Hn & Hs & Ht).
  exists new. split; [|split].
  - constructor; simpl.
    + now rewrite (p_stack P).
    + intro k. unfold seen; simpl. fold (seen st3 k).
      rewrite (p_seen P), S2. intuition (subst; auto).
    + intros k [<- | I]; auto. apply (p_fresh P) in I.
      destruct (seen st k) eqn:Sk; auto.
      assert (seen st2 k = true) by (apply S2; auto). congruence.
    + constructor; [|apply (p_nodup P)].
      intro I. apply (p_fresh P) in I.
      assert (seen st2 v = true) by (apply S2; auto). congruence.
    + exact (p_graph P).
    + intro k. rewrite (p_keys P). unfold st2; simpl.
      rewrite in_keys_index. intuition (subst; auto).
    + intro S. apply (p_sorted P). unfold st2; simpl.
      now apply sorted_index.
    + intros x [<- | I] y Ey; unfold seen; simpl; fold (seen st3 y).
      * now apply Hs.
      * now apply (p_done P) with x.
    + intros k l E. apply (p_entries P) in E. unfold st2 in E; simpl in E.
      destruct E as [E | [E ->]].
      * now apply find_index_entries in E.
      * right. split; auto. apply find_none_keys.
        apply find_none_keys in E. intro I. apply E.
        apply in_keys_index. now right.
    + intro K.
      assert (E2 : st_adj st2 = st_adj st)
        by (unfold st2; simpl; apply index_present, K; now left).
      rewrite <- E2. apply (p_same P). intros k I. rewrite E2.
      apply K. now right.
  - intros x I. destruct (Hn x I) as [Ix | Ix]; [now exists v | exact Ix].
  - intros A T Pg. simpl. split.
    + intros y Ey.
      destruct (in_dec key_eq_dec y (st_stack st3)) as [I | N]; auto.
      exfalso.
      assert (Q : in_progress st3 y) by (split; [now apply Hs | exact N]).
      apply (in_progress_pushes P) in Q. destruct Q as [Sy Ny].
      apply S2 in Sy. destruct Sy as [-> | Sy].
      * apply (A v). now apply t_step.
      * apply (A y). apply t_trans with v; [|now apply t_step].
        apply Pg. now split.
    + apply Ht; auto. intros g [Sg Ng] i Ei. apply S2 in Sg.
      destruct Sg as [-> | Sg]; [now apply t_step|].
      apply t_trans with v; [|now apply t_step]. apply Pg. now split.
Qed.

(** *** Enough fuel *)

Lemma filter_length_mono : forall (p q : Key -> bool) (l : list Key),
    (forall x, In x l -> p x = true -> q x = true) ->
    length (filter p l) <= length (filter q l).
Proof.
  intros p q l. induction l as [|a l IH]; simpl; intro Hpq; auto.
  assert (IH' : length (filter p l) <= length (filter q l)) by auto.
  destruct (p a) eqn:Pa.
  - rewrite (Hpq a) by auto. simpl. lia.
  - destruct (q a); simpl; lia.
Qed.

Lemma filter_length_strict : forall (p q : Key -> bool) (l : list Key) a,
    (forall x, In x l -> p x = true -> q x = true) ->
    In a l -> p a = false -> q a = true ->
    length (filter p l) < length (filter q l).
Proof.
  intros p q l a. induction l as [|b l IH]; simpl; intros Hpq I Pa Qa.
  - contradiction.
  - assert (Hle : length (filter p l) <= length (filter q l))
      by (apply filter_length_mono; auto).
    destruct I as [-> | I].
    + rewrite Pa, Qa. simpl. lia.
    + assert (length (filter p l) < length (filter q l)) by auto.
      destruct (p b) eqn:Pb.
      * rewrite (Hpq b) by auto. simpl. lia.
      * destruct (q b); simpl; lia.
Qed.

Lemma pending_pushes : forall V news st st',
    pushes news st st' -> pending V st' <= pending V st.
Proof.
  intros V news st st' P. apply filter_length_mono. intros x _ E.
  apply negb_true_iff in E. apply negb_true_iff.
  destruct (seen st x) eqn:S; auto.
  assert (seen st' x = true) by (apply (p_seen P); auto). congruence.
Qed.

Lemma for_successors_total :
  forall (V : list Key) (n : nat)
         (rec : Key -> state Key -> option (state Key)),
    (forall i st, graph_is st -> In i V -> seen st i = false ->
                  pending V st <= n ->
                  exists st', rec i st = Some st' /\ call_spec i st st') ->
    forall l st,
      graph_is st -> (forall i, In i l -> In i V) -> pending V st <= n ->
      exists st', for_successors rec l st = Some st'.
Proof.
  intros V n rec Hrec l. induction l as [|i l IH]; intros st Gs HV Hp.
  - now exists st.
  - rewrite for_successors_cons. cbv zeta.
    pose proof (pushes_read i Gs) as P1.
    set (st1 := State (st_adj st) (snd (index false i (st_visited st)))
                      (st_stack st)) in *.
    pose proof (pending_pushes V P1) as Hp1.
    destruct (seen st i) eqn:Si.
    + apply IH; [exact (p_graph P1) | auto with datatypes | lia].
    + assert (S1 : seen st1 i = false).
      { destruct (seen st1 i) eqn:S1; auto.
        apply (p_seen P1) in S1. destruct S1 as [S1 | []]. congruence. }
      destruct (Hrec i st1 (p_graph P1)) as (st2 & R & new & P & _);
        [auto with datatypes | exact S1 | lia |].
      rewrite R. pose proof (pending_pushes V P) as Hp2.
      apply IH; [exact (p_graph P) | auto with datatypes | lia].
Qed.

Lemma sort_util_total : forall (V : list Key),
    (forall k y, In y (G k) -> In y V) ->
    forall n v st,
      graph_is st -> In v V -> seen st v = false -> pending V st <= n ->
      exists st', sort_util n v st = Some st' /\ call_spec v st st'.
Proof.
  intros V HV. induction n as [|n IH]; intros v st Gs Iv Sv Hp.
  - exfalso. unfold pending in Hp.
    assert (In v (filter (fun k => negb (seen st k)) V))
      by (apply filter_In; rewrite Sv; auto).
    destruct (filter (fun k => negb (seen st k)) V); simpl in *;
      [contradiction | lia].
  - assert (E : exists st', sort_util (S n) v st = Some st').
    { rewrite sort_util_S.
      set (st2 := State (snd (index [] v (st_adj st)))
                        (insert v true (st_visited st)) (st_stack st)).
      assert (G2 : graph_is st2).
      { intro k. unfold st2; simpl. rewrite index_successors_snd.
        apply Gs. }
      assert (Hp2 : pending V st2 < pending V st).
      { apply filter_length_strict with v; auto.
        - intros x _ E. apply negb_true_iff in E. apply negb_true_iff.
          destruct (seen st x) eqn:S; auto.
          assert (seen st2 x = true)
            by (unfold seen, st2; simpl; apply is_visited_insert; auto).
          congruence.
        - apply negb_false_iff. unfold seen, st2; simpl.
          apply is_visited_insert. auto.
        - now rewrite Sv. }
      rewrite Gs.
      destruct (for_successors_total V (n := n) (sort_util n) IH (G v) G2)
        as (st3 & L); [intros i Ii; now apply HV with v | lia |].
      rewrite L. eauto. }
    destruct E as (st' & E). exists st'. split; auto.
    now apply sort_util_spec with (S n).
Qed.

(** *** The loop of [topological_sort] *)

Variable adj0 : adjacency_type Key.

Local Abbreviation vertex := (vertex G adj0).
Local Abbreviation between := (between G adj0).

Lemma between_pushes : forall news st st',
    between st -> pushes news st st' ->
    (forall x, In x news -> vertex x) ->
    (acyclic -> topo (st_stack st')) ->
    between st'.
Proof.
  intros news st st' B P Hv Ht. constructor.
  - exact (p_graph P).
  - intro k. rewrite (p_seen P), (p_stack P), in_app_iff, (b_seen B).
    tauto.
  - rewrite (p_stack P).
    apply NoDup_app; [exact (p_nodup P) | exact (b_nodup B) |].
    intros a I1 I2. apply (p_fresh P) in I1. apply (b_seen B) in I2.
    congruence.
  - exact (p_sorted P (b_sorted B)).
  - intros k I. apply (p_keys P). left. now apply (b_keys0 B).
  - intros k I. rewrite (p_stack P), in_app_iff.
    apply (p_keys P) in I. destruct I as [I | I]; [|tauto].
    apply (b_keys B) in I. tauto.
  - intros k l E. apply (p_entries P) in E.
    destruct E as [E | [E ->]]; [now apply (b_entries B)|].
    right. split; auto. apply find_none_keys.
    apply find_none_keys in E. intro I. apply E. now apply (b_keys0 B).
  - intros k I. rewrite (p_stack P), in_app_iff in I.
    destruct I as [I | I]; [now apply Hv | now apply (b_vertex B)].
  - intros x I y Ey.
    assert (S : seen st' y = true).
    { rewrite (p_stack P), in_app_iff in I. destruct I as [I | I].
      - now apply (p_done P) with x.
      - apply (p_seen P). left. apply (b_seen B).
        now apply (b_done B) with x. }
    apply (p_seen P) in S. rewrite (p_stack P), in_app_iff.
    destruct S as [S | S]; [right; now apply (b_seen B) | now left].
  - exact Ht.
  - intros k I. rewrite (p_stack P), in_app_iff in I. apply (p_keys P).
    destruct I as [I | I]; [now right | left; now apply (b_pushed B)].
  - intro K. rewrite (p_stack P) in K.
    assert (E0 : st_adj st = adj0)
      by (apply (b_same B); intros k I; apply K, in_app_iff; now right).
    rewrite <- E0. apply (p_same P). intros k I. rewrite E0.
    apply K, in_app_iff. now left.
Qed.

Lemma covered_next : forall news st st' key,
    between st -> pushes news st st' -> In key (keys (st_adj st)) ->
    covered (Some key) st -> seen st' key = true ->
    covered (next key (st_adj st')) st'.
Proof.
  intros news st st' key B P Ik C Sk x Ix Hx.
  pose proof (p_sorted P (b_sorted B)) as S'.
  destruct (key_lt x key) eqn:L1.
  - apply (p_seen P). apply (p_keys P) in Ix.
    destruct Ix as [Ix | Ix]; [left; now apply C | now right].
  - destruct (key_lt key x) eqn:L2.
    + exfalso. destruct (next key (st_adj st')) as [k'|] eqn:N.
      * pose proof (next_least _ _ S' N Ix L2). congruence.
      * pose proof (next_none _ _ _ N Ix). congruence.
    + assert (x = key) by now apply key_lt_total. now subst.
Qed.

Lemma ahead_next : forall V key (m : adjacency_type Key),
    In key V -> ahead V (next key m) < ahead V (Some key).
Proof.
  intros V key m I. destruct (next key m) as [k'|] eqn:N; simpl.
  - apply next_in in N. destruct N as [_ L].
    apply filter_length_strict with key; auto.
    + intros x _ E. apply negb_true_iff in E. apply negb_true_iff.
      destruct (key_lt x key) eqn:L'; auto.
      rewrite (key_lt_trans _ _ _ L' L) in E. discriminate.
    + now rewrite L.
    + now rewrite key_lt_irrefl.
  - assert (In key (filter (fun x => negb (key_lt x key)) V))
      by (apply filter_In; rewrite key_lt_irrefl; auto).
    destruct (filter (fun x => negb (key_lt x key)) V); simpl in *;
      [contradiction | lia].
Qed.

Lemma sort_loop_total : forall (V : list Key) (fuel : nat),
    (forall x, vertex x -> In x V) -> length V <= fuel ->
    forall n it st,
      between st -> covered it st ->
      (forall k, it = Some k -> In k (keys (st_adj st))) ->
      ahead V it <= n ->
      exists st', sort_loop n fuel it st = Some st' /\
                  between st' /\ covered None st'.
Proof.
  intros V fuel HV Hfuel.
  assert (HG : forall k y, In y (G k) -> In y V).
  { intros k y Ey. apply HV. right. now exists k. }
  induction n as [|n IH]; intros it st B C Hit Ha.
  - destruct it as [key|]; [|now exists st].
    exfalso. assert (Ik : In key V).
    { apply HV. destruct (b_keys B key (Hit key eq_refl)); [now left|].
      now apply (b_vertex B). }
    pose proof (ahead_next V key (st_adj st) Ik). lia.
  - destruct it as [key|]; [|now exists st].
    pose proof (Hit key eq_refl) as Ikey.
    assert (Vkey : vertex key).
    { destruct (b_keys B key Ikey); [now left | now apply (b_vertex B)]. }
    rewrite sort_loop_Some. cbv zeta.
    pose proof (pushes_read key (b_graph B)) as P1.
    set (st1 := State (st_adj st) (snd (index false key (st_visited st)))
                      (st_stack st)) in *.
    assert (Step : exists news st2,
               (if seen st key then Some st1 else sort_util fuel key st1)
               = Some st2 /\ pushes news st st2 /\
               (forall x, In x news -> vertex x) /\
               (acyclic -> topo (st_stack st2)) /\ seen st2 key = true).
    { destruct (seen st key) eqn:Sk.
      - exists [], st1. split; [reflexivity|]. split; [exact P1|].
        split; [intros x []|]. split; [exact (b_topo B)|].
        apply (p_seen P1). now left.
      - assert (S1 : seen st1 key = false).
        { destruct (seen st1 key) eqn:S1; auto.
          apply (p_seen P1) in S1. destruct S1 as [S1 | []]. congruence. }
        destruct (@sort_util_total V HG fuel key st1 (p_graph P1))
          as (st2 & E & new & P & Hn & Ht); auto.
        { unfold pending.
          pose proof (List.filter_length_le
                        (fun k => negb (seen st1 k)) V). lia. }
        exists ((key :: new) ++ []), st2. split; [exact E|].
        split; [exact (pushes_trans P1 P)|].
        split; [|split].
        + intros x I. rewrite app_nil_r in I.
          destruct I as [<- | I]; [exact Vkey | right; now apply Hn].
        + intro A. apply Ht; auto.
          * exact (b_topo B A).
          * intros g [Sg Ng]. exfalso. apply Ng.
            apply (b_seen B). apply (p_seen P1) in Sg.
            destruct Sg as [Sg | []]. exact Sg.
        + apply (p_seen P). right. now left. }
    destruct Step as (news & st2 & E & P & Hn & Ht & Sk).
    rewrite E.
    apply IH.
    + exact (between_pushes B P Hn Ht).
    + exact (covered_next B P Ikey C Sk).
    + intros k N. apply next_in in N. tauto.
    + assert (In key V) by now apply HV.
      pose proof (ahead_next V key (st_adj st2) H0). simpl in *. lia.
Qed.

End Traversal.

(** *** More fuel changes nothing *)

Section Fuel.
Context {Key : Type} `{KeyOrder Key}.

Lemma for_successors_mono :
  forall rec1 rec2 : Key -> state Key -> option (state Key),
    (forall i st st', rec1 i st = Some st' -> rec2 i st = Some st') ->
    forall l st st',
      for_successors rec1 l st = Some st' ->
      for_successors rec2 l st = Some st'.
Proof.
  intros rec1 rec2 Hr l. induction l as [|i l IH]; intros st st' E.
  - exact E.
  - rewrite for_successors_cons in *. cbv zeta in *.
    destruct (seen st i); auto.
    destruct (rec1 i _) as [st2|] eqn:R; [|discriminate].
    rewrite (Hr _ _ _ R). auto.
Qed.

Lemma sort_util_mono : forall n m v (st st' : state Key),
    n <= m -> sort_util n v st = Some st' -> sort_util m v st = Some st'.
Proof.
  induction n as [|n IH]; intros m v st st' L E; [discriminate|].
  destruct m as [|m]; [lia|].
  rewrite sort_util_S in *.
  destruct (for_successors (sort_util n) _ _) as [st3|] eqn:F;
    [|discriminate].
  rewrite (for_successors_mono (sort_util n) (sort_util m)) with (st' := st3);
    auto.
  intros i s s'. apply IH. lia.
Qed.

Lemma sort_loop_mono : forall n n' f f' it (st st' : state Key),
    n <= n' -> f <= f' ->
    sort_loop n f it st = Some st' -> sort_loop n' f' it st = Some st'.
Proof.
  induction n as [|n IH]; intros n' f f' it st st' Ln Lf E.
  - destruct it; [discriminate|]. destruct n'; exact E.
  - destruct it as [key|]; [|destruct n'; exact E].
    destruct n' as [|n']; [lia|].
    rewrite sort_loop_Some in *. cbv zeta in *.
    destruct (seen st key).
    + apply IH with f; auto. lia.
    + destruct (sort_util f key _) as [st2|] eqn:U; [|discriminate].
      rewrite (@sort_util_mono f f' _ _ _ Lf U). apply IH with f; auto. lia.
Qed.

Lemma topological_sort_fuel_mono : forall n m (adj : adjacency_type Key) r,
    n <= m -> topological_sort_fuel n adj = Some r ->
    topological_sort_fuel m adj = Some r.
Proof.
  intros n m adj r L. unfold topological_sort_fuel.
  destruct (sort_loop n n _ _) as [st|] eqn:E; [|discriminate].
  now rewrite (@sort_loop_mono n m n m _ _ _ L L E).
Qed.

End Fuel.

(** ** topological_sort on a sorted adjacency map *)

Section Linearised.
Context {Key : Type} `{KeyOrder Key}.
Implicit Types (adj : adjacency_type Key) (s : stack_type Key).

Lemma find_some_in : forall {V : Type} k (v : V) (m : std_map Key V),
    find k m = Some v -> In (k, v) m.
Proof.
  intros V k v m. induction m as [|[k0 v0] m IH]; simpl; [discriminate|].
  destruct (key_eqb k k0) eqn:E.
  - apply key_eqb_eq in E. subst. intros [= ->]. now left.
  - intro F. right. auto.
Qed.

Lemma successors_key : forall adj p y,
    In y (successors adj p) -> In p (keys adj).
Proof.
  intros adj p y. unfold successors.
  destruct (find p adj) eqn:F; [|intros []].
  intros _. now apply find_some_keys in F.
Qed.

Lemma vertex_in_vertices : forall adj x,
    vertex (successors adj) adj x -> In x (vertices adj).
Proof.
  intros adj x [I | (p & I)]; unfold vertices; apply in_app_iff.
  - now left.
  - right. unfold successors in I.
    destruct (find p adj) as [l|] eqn:F; [|destruct I].
    apply in_concat. exists l. split; auto.
    apply find_some_in in F. apply in_map_iff. now exists (p, l).
Qed.

Lemma between_start : forall adj,
    sorted adj -> between (successors adj) adj (State adj [] []).
Proof.
  intros adj S. constructor; simpl.
  - intro k. reflexivity.
  - intro k. unfold seen, is_visited. simpl. split; [discriminate | tauto].
  - constructor.
  - exact S.
  - auto.
  - auto.
  - auto.
  - intros k [].
  - intros x [].
  - auto.
  - intros k [].
  - auto.
Qed.

Lemma topological_sort_fuel_sorted : forall adj fuel,
    sorted adj -> length (vertices adj) <= fuel ->
    exists adj' s,
      topological_sort_fuel fuel adj = Some (adj', s) /\
      linearised adj adj' s.
Proof.
  intros adj fuel S Hf.
  destruct (@sort_loop_total Key _ (successors adj) adj (vertices adj) fuel
              (@vertex_in_vertices adj) Hf fuel (begin adj)
              (State adj [] []) (between_start S))
    as (st' & E & B & C).
  - intros x Ix Hx. exfalso. destruct (begin adj) as [k|] eqn:Bg.
    + simpl in Ix. rewrite (begin_least x S Bg Ix) in Hx. discriminate.
    + apply begin_none in Bg. subst. destruct Ix.
  - intros k Bg. simpl. now apply begin_in.
  - destruct (begin adj); simpl; [|lia].
    pose proof (List.filter_length_le (fun x => negb (key_lt x k))
                                      (vertices adj)). lia.
  - exists (st_adj st'), (st_stack st'). unfold topological_sort_fuel.
    rewrite E. split; [reflexivity|].
    assert (Hk : forall k, In k (keys (st_adj st')) -> In k (st_stack st')).
    { intros k I. apply (b_seen B). now apply C. }
    constructor.
    + exact (b_nodup B).
    + intro x. split; [apply (b_vertex B)|].
      intros [I | (p & I)].
      * apply Hk. now apply (b_keys0 B).
      * apply (b_done B) with p; auto.
        apply Hk, (b_keys0 B). now apply successors_key with x.
    + exact (b_graph B).
    + intros k l F.
      assert (I : In k (keys (st_adj st')))
        by (apply (b_keys0 B); now apply find_some_keys in F).
      apply find_in_keys in I.
      destruct (find k (st_adj st')) as [l'|] eqn:F'; [|congruence].
      destruct (b_entries B _ F') as [F0 | [F0 _]]; congruence.
    + intros k l F. destruct (b_entries B _ F) as [F0 | [F0 ->]]; auto.
      right. repeat split; auto. apply Hk. now apply find_some_keys in F.
    + intro k. split; [apply Hk | apply (b_pushed B)].
    + exact (b_sorted B).
    + intro Cl. apply (b_same B). intros k I.
      destruct (b_vertex B _ I) as [I0 | (p & I0)]; auto.
      now apply Cl with p.
    + exact (b_topo B).
Qed.

Lemma topological_sort_sorted : forall adj,
    sorted adj ->
    exists adj' s,
      topological_sort adj = Some (adj', s) /\ linearised adj adj' s.
Proof.
  intros adj S. now apply topological_sort_fuel_sorted.
Qed.

Lemma topological_sort_enough : forall adj fuel,
    sorted adj -> length (vertices adj) <= fuel ->
    topological_sort_fuel fuel adj = topological_sort adj.
Proof.
  intros adj fuel S Hf.
  destruct (topological_sort_sorted S) as (adj' & s & E & _).
  rewrite E. now apply topological_sort_fuel_mono with (length (vertices adj)).
Qed.

(** After a call every successor has a node, and a further call changes
    nothing in [adj]. *)
Lemma linearised_closed : forall adj adj' s,
    linearised adj adj' s -> closed adj'.
Proof.
  intros adj adj' s L k y I. rewrite (l_successors L) in I.
  apply (l_keys L), (l_vertices L). right. now exists k.
Qed.

End Linearised.

(** ** Graphs built by [precede] *)

Section Build.
Context {Key : Type} `{KeyOrder Key}.
Implicit Types (adj : adjacency_type Key) (edges : list (Key * Key)).

Lemma precede_eq : forall v w adj,
    precede v w adj =
    insert v (successors adj v ++ [w]) (snd (index [] v adj)).
Proof.
  intros v w adj. unfold precede. rewrite <- index_successors_fst.
  now destruct (index [] v adj).
Qed.

Lemma successors_precede_same : forall v w adj,
    successors (precede v w adj) v = successors adj v ++ [w].
Proof.
  intros v w adj. rewrite precede_eq. unfold successors at 1.
  now rewrite find_insert_same.
Qed.

Lemma successors_precede_other : forall v w adj k,
    k <> v -> successors (precede v w adj) k = successors adj k.
Proof.
  intros v w adj k N. rewrite precede_eq. unfold successors at 1.
  rewrite find_insert_other by auto.
  fold (successors (snd (index [] v adj)) k).
  apply index_successors_snd.
Qed.

Lemma in_keys_precede : forall v w adj k,
    In k (keys (precede v w adj)) <-> k = v \/ In k (keys adj).
Proof.
  intros v w adj k. rewrite precede_eq, in_keys_insert, in_keys_index.
  tauto.
Qed.

Lemma sorted_precede : forall v w adj,
    sorted adj -> sorted (precede v w adj).
Proof.
  intros v w adj S. rewrite precede_eq.
  now apply sorted_insert, sorted_index.
Qed.

Lemma build_snoc : forall edges v w,
    build (edges ++ [(v, w)]) = precede v w (build edges).
Proof. intros edges v w. unfold build. now rewrite fold_left_app. Qed.

Lemma sorted_build : forall edges, sorted (build edges).
Proof.
  intro edges. induction edges as [|[v w] edges IH] using rev_ind.
  - apply sorted_nil.
  - rewrite build_snoc. now apply sorted_precede.
Qed.

Lemma in_successors_build : forall edges v w,
    In w (successors (build edges) v) <-> In (v, w) edges.
Proof.
  intro edges. induction edges as [|[v0 w0] edges IH] using rev_ind;
    intros v w.
  - simpl. tauto.
  - rewrite build_snoc, in_app_iff. simpl.
    destruct (key_eq_dec v v0) as [-> | N].
    + rewrite successors_precede_same, in_app_iff, IH. simpl.
      intuition congruence.
    + rewrite successors_precede_other, IH by auto.
      intuition congruence.
Qed.

Lemma in_keys_build : forall edges v,
    In v (keys (build edges)) <-> exists w, In (v, w) edges.
Proof.
  intro edges. induction edges as [|[v0 w0] edges IH] using rev_ind;
    intro v.
  - simpl. split; [tauto | intros (w & [])].
  - rewrite build_snoc, in_keys_precede, IH. split.
    + intros [-> | (w & I)].
      * exists w0. apply in_app_iff. right. now left.
      * exists w. apply in_app_iff. now left.
    + intros (w & I). apply in_app_iff in I.
      destruct I as [I | [[= -> ->] | []]]; [right; now exists w | now left].
Qed.

Lemma vertex_build : forall edges x,
    vertex (successors (build edges)) (build edges) x <->
    is_vertex edges x.
Proof.
  intros edges x. unfold vertex, is_vertex. split.
  - intros [I | (p & I)].
    + apply in_keys_build in I. destruct I as (w & I).
      exists x, w. auto.
    + apply in_successors_build in I. exists p, x. auto.
  - intros (v & w & I & [-> | ->]).
    + left. apply in_keys_build. now exists w.
    + right. exists v. now apply in_successors_build.
Qed.

Lemma acyclic_build : forall edges,
    acyclic_edges edges -> acyclic (successors (build edges)).
Proof.
  intros edges A v P. apply (A v).
  assert (L : forall a b, path (successors (build edges)) a b ->
                          clos_trans Key (declared edges) a b).
  { clear v P. intros a b P.
    induction P as [a b E | a b c _ IH1 _ IH2].
    - apply t_step. unfold declared. apply in_successors_build. exact E.
    - now apply t_trans with b. }
  now apply L.
Qed.

(** A rank that grows along every edge shows the graph acyclic. *)
Lemma ranked_acyclic : forall (rank : Key -> nat) edges,
    forallb (fun e => Nat.ltb (rank (fst e)) (rank (snd e))) edges = true ->
    acyclic_edges edges.
Proof.
  intros rank edges F v P.
  assert (L : forall a b, clos_trans Key (declared edges) a b ->
                          rank a < rank b).
  { intros a b Q. induction Q as [a b E | a b c _ IH1 _ IH2]; [|lia].
    rewrite forallb_forall in F. unfold declared in E. apply F in E.
    simpl in E. now apply Nat.ltb_lt. }
  apply L in P. lia.
Qed.

(** Positions in the order of consumption: [s] is popped from its head. *)
Lemma topo_positions : forall (G : Key -> list Key) s v w,
    topo G s -> In v s -> In w (G v) ->
    exists i j, nth_error s i = Some v /\ nth_error s j = Some w /\ i < j.
Proof.
  intros G s v w. induction s as [|x s IH]; simpl; [tauto|].
  intros [Hx T] [-> | I] E.
  - apply Hx in E. apply In_nth_error in E. destruct E as (j & E).
    exists 0, (S j). simpl. repeat split; auto. lia.
  - destruct (IH T I E) as (i & j & Ei & Ej & L).
    exists (S i), (S j). simpl. repeat split; auto. lia.
Qed.

End Build.

(** ** Merging the order with the contents of a sequence *)

Section Merge.
Context {Key : Type} `{KeyOrder Key}.
Implicit Types (c l ks : list Key).

Lemma memb_In : forall x l, memb x l = true <-> In x l.
Proof.
  intros x l. unfold memb. rewrite existsb_exists. split.
  - intros (y & I & E). apply key_eqb_eq in E. now subst.
  - intro I. exists x. split; auto. apply key_eqb_refl.
Qed.

Lemma memb_false : forall x l, memb x l = false <-> ~ In x l.
Proof.
  intros x l. rewrite <- memb_In. destruct (memb x l); split; congruence.
Qed.

Lemma expand_app : forall c k1 k2,
    expand c (k1 ++ k2) = expand c k1 ++ expand c k2.
Proof. intros. unfold expand. apply flat_map_app. Qed.

Lemma expand_one : forall c k, expand c [k] = repeat k (count k c).
Proof. intros. unfold expand. simpl. apply app_nil_r. Qed.

Lemma count_In : forall k c, 0 < count k c <-> In k c.
Proof.
  intros k c. unfold count. induction c as [|x c IH]; simpl.
  - split; [lia | tauto].
  - destruct (key_eqb k x) eqn:E; simpl.
    + apply key_eqb_eq in E. subst. split; [auto | lia].
    + apply key_eqb_neq in E. rewrite IH. intuition congruence.
Qed.

Lemma in_expand : forall c ks x,
    In x (expand c ks) <-> In x ks /\ In x c.
Proof.
  intros c ks x. unfold expand. rewrite in_flat_map. split.
  - intros (k & Ik & Ix). pose proof (repeat_spec _ _ _ Ix). subst k.
    split; auto. apply count_In.
    destruct (count x c); [destruct Ix | lia].
  - intros [Ik Ic]. exists x. split; auto. apply count_In in Ic.
    destruct (count x c); [lia | now left].
Qed.

(** *** What the two loops of the vector adapter compute *)

Lemma stack_helper_copy_count : forall c s acc,
    exists copied',
      stack_helper (copy_count c) s acc =
      Some (fst acc ++ expand c s, copied') /\
      (forall k, is_visited copied' k = true <->
                 is_visited (snd acc) k = true \/ In k s).
Proof.
  intros c s. induction s as [|key s IH]; intros [result copied].
  - exists copied. simpl. rewrite app_nil_r. split; auto. tauto.
  - destruct (IH (result ++ repeat key (count key c),
                  insert key true copied)) as (cp & E & Hc).
    exists cp. cbn [stack_helper].
    change (copy_count c key (result, copied))
      with (Some (result ++ repeat key (count key c),
                  insert key true copied)).
    cbv iota. rewrite E. simpl fst in *. simpl snd in *. split.
    + unfold expand. simpl. now rewrite app_assoc.
    + intro k. rewrite Hc, is_visited_insert. simpl.
      intuition (subst; auto).
Qed.

Lemma copy_rest_count_eq : forall c acc x,
    copy_rest_count c acc x =
    if is_visited (snd acc) x
    then (fst acc, snd (index false x (snd acc)))
    else (fst acc ++ repeat x (count x c),
          insert x true (snd (index false x (snd acc)))).
Proof.
  intros c [result copied] x. unfold copy_rest_count. simpl fst. simpl snd.
  rewrite <- index_visited_fst.
  destruct (index false x copied) as [b copied1]. simpl.
  now destruct b.
Qed.

Lemma fold_copy_rest_count : forall c l acc done,
    (forall k, is_visited (snd acc) k = true <-> In k done) ->
    fst (fold_left (copy_rest_count c) l acc) =
    fst acc ++ expand c (firsts done l).
Proof.
  intros c l. induction l as [|x l IH]; intros acc done Hd.
  - simpl. now rewrite app_nil_r.
  - cbn [fold_left firsts]. rewrite copy_rest_count_eq.
    destruct (is_visited (snd acc) x) eqn:V.
    + assert (M : memb x done = true) by (apply memb_In, Hd, V).
      rewrite M. rewrite (IH _ done); auto.
      intro k. simpl snd. rewrite index_visited_snd. apply Hd.
    + assert (M : memb x done = false).
      { apply memb_false. intro I. apply Hd in I. congruence. }
      rewrite M.
      rewrite (IH _ (done ++ [x])).
      * simpl fst.
        change (x :: firsts (done ++ [x]) l)
          with ([x] ++ firsts (done ++ [x]) l).
        now rewrite expand_app, expand_one, app_assoc.
      * intro k. simpl snd.
        rewrite is_visited_insert, index_visited_snd, Hd, in_app_iff.
        simpl. intuition (subst; auto).
Qed.

Lemma vector_merge_eq : forall s c,
    vector_merge s c = Returns (expand c s ++ expand c (firsts s c)).
Proof.
  intros s c. unfold vector_merge.
  destruct (stack_helper_copy_count c s ([], [])) as (cp & E & Hc).
  rewrite E. f_equal.
  rewrite (fold_copy_rest_count c c _ s); auto.
  intro k. simpl snd. rewrite Hc. unfold is_visited. simpl.
  intuition discriminate.
Qed.

(** *** Counting *)

Lemma expand_length : forall c ks,
    length (expand c ks) = list_sum (map (fun k => count k c) ks).
Proof.
  intros c ks. unfold expand. induction ks as [|k ks IH]; simpl; auto.
  now rewrite length_app, repeat_length, IH.
Qed.

Lemma sum_indicator : forall x ks,
    NoDup ks ->
    list_sum (map (fun k => if key_eqb k x then 1 else 0) ks) =
    if memb x ks then 1 else 0.
Proof.
  intros x ks N. induction N as [|k ks Nk N IH]; simpl; auto.
  rewrite IH. unfold memb at 2. simpl. fold (memb x ks).
  destruct (key_eqb k x) eqn:E.
  - apply key_eqb_eq in E. subst k. rewrite key_eqb_refl. simpl.
    apply memb_false in Nk. now rewrite Nk.
  - assert (E' : key_eqb x k = false).
    { apply key_eqb_neq. apply key_eqb_neq in E. congruence. }
    now rewrite E'.
Qed.

Lemma sum_counts : forall c ks,
    NoDup ks ->
    list_sum (map (fun k => count k c) ks) =
    length (filter (fun x => memb x ks) c).
Proof.
  intros c ks N. induction c as [|x c IH].
  - simpl. induction ks; simpl; auto. inversion N; auto.
  - assert (S : list_sum (map (fun k => count k (x :: c)) ks) =
                list_sum (map (fun k => if key_eqb k x then 1 else 0) ks)
                + list_sum (map (fun k => count k c) ks)).
    { clear. induction ks as [|k ks IHk]; simpl; auto.
      rewrite IHk. unfold count. simpl.
      destruct (key_eqb k x); simpl; lia. }
    rewrite S, IH, sum_indicator by assumption. simpl.
    destruct (memb x ks); simpl; lia.
Qed.

Lemma filter_all : forall (p : Key -> bool) l,
    (forall x, In x l -> p x = true) -> filter p l = l.
Proof.
  intros p l. induction l as [|x l IH]; simpl; intro A; auto.
  rewrite A by auto. f_equal. auto.
Qed.

Lemma expand_length_le : forall c ks,
    NoDup ks -> length (expand c ks) <= length c.
Proof.
  intros c ks N. rewrite expand_length, sum_counts by assumption.
  apply List.filter_length_le.
Qed.

Lemma expand_length_all : forall c ks,
    NoDup ks -> (forall x, In x c -> In x ks) ->
    length (expand c ks) = length c.
Proof.
  intros c ks N A. rewrite expand_length, sum_counts by assumption.
  rewrite filter_all; auto. intros x I. now apply memb_In, A.
Qed.

(** *** First occurrences *)

Lemma in_firsts : forall l done x,
    In x (firsts done l) <-> In x l /\ ~ In x done.
Proof.
  induction l as [|y l IH]; intros done x; simpl; [tauto|].
  destruct (memb y done) eqn:M.
  - rewrite IH. apply memb_In in M. intuition (subst; tauto).
  - apply memb_false in M. simpl. rewrite IH, in_app_iff. simpl.
    destruct (key_eq_dec y x) as [-> | N]; intuition congruence.
Qed.

Lemma nodup_firsts : forall l done, NoDup (firsts done l).
Proof.
  induction l as [|y l IH]; intro done; simpl; [constructor|].
  destruct (memb y done); auto. constructor; auto.
  rewrite in_firsts, in_app_iff. simpl. tauto.
Qed.

Lemma nodup_order : forall s c, NoDup s -> NoDup (s ++ firsts s c).
Proof.
  intros s c N. apply NoDup_app; auto using nodup_firsts.
  intros a I1 I2. apply in_firsts in I2. tauto.
Qed.

Lemma order_covers : forall s c x, In x c -> In x (s ++ firsts s c).
Proof.
  intros s c x I. rewrite in_app_iff, in_firsts.
  destruct (memb x s) eqn:M.
  - left. now apply memb_In.
  - right. split; auto. now apply memb_false.
Qed.

Lemma firsts_filter : forall l done extra,
    firsts (done ++ extra) l =
    firsts extra (filter (fun x => negb (memb x done)) l).
Proof.
  induction l as [|y l IH]; intros done extra; simpl; auto.
  assert (M : memb y (done ++ extra) = memb y done || memb y extra)
    by (unfold memb; apply existsb_app).
  rewrite M. destruct (memb y done) eqn:Md; simpl.
  - apply IH.
  - destruct (memb y extra); [apply IH|].
    f_equal. rewrite <- app_assoc. apply IH.
Qed.

Lemma firsts_unconstrained : forall s c,
    firsts s c =
    first_occurrences (filter (fun x => negb (memb x s)) c).
Proof.
  intros s c. unfold first_occurrences.
  rewrite <- (firsts_filter c s []). now rewrite app_nil_r.
Qed.

Lemma vector_merge_length : forall s c,
    NoDup s ->
    exists r, vector_merge s c = Returns r /\ length r = length c.
Proof.
  intros s c N. rewrite vector_merge_eq. eexists. split; [reflexivity|].
  rewrite <- expand_app.
  apply expand_length_all; [now apply nodup_order | apply order_covers].
Qed.

(** *** The array adapter stores what the vector adapter appends *)

Lemma store_at : forall (w : list Key) (x : Key) rest key,
    store (w ++ x :: rest) (length w) key = Some (w ++ key :: rest).
Proof.
  induction w as [|y w IH]; intros x rest key; simpl; auto.
  now rewrite IH.
Qed.

Lemma store_n_pad : forall (dflt : Key) n key (w : list Key) m,
    n <= m ->
    store_n n key (w ++ repeat dflt m) (length w) =
    Some ((w ++ repeat key n) ++ repeat dflt (m - n),
          length (w ++ repeat key n)).
Proof.
  intros dflt n key. induction n as [|n IH]; intros w m L; simpl.
  - now rewrite app_nil_r, Nat.sub_0_r.
  - destruct m as [|m]; [lia|]. simpl repeat. rewrite store_at.
    replace (w ++ key :: repeat dflt m)
      with ((w ++ [key]) ++ repeat dflt m)
      by (now rewrite <- app_assoc).
    replace (S (length w)) with (length (w ++ [key]))
      by (rewrite length_app; simpl; lia).
    rewrite IH by lia.
    replace ((w ++ [key]) ++ repeat key n) with (w ++ key :: repeat key n)
      by (now rewrite <- app_assoc).
    reflexivity.
Qed.

Lemma store_n_filled : forall dflt c ks k acc copied,
    filled dflt c ks acc -> NoDup (ks ++ [k]) ->
    exists result index,
      store_n (count k c) k (acc_result acc) (acc_index acc) =
      Some (result, index) /\
      filled dflt c (ks ++ [k]) (ArrayAcc result index copied).
Proof.
  intros dflt c ks k acc copied [Er Ei] N.
  pose proof (expand_length_le c N) as L.
  rewrite expand_app, expand_one, length_app, repeat_length in L.
  rewrite Er, Ei, store_n_pad by lia.
  do 2 eexists. split; [reflexivity|]. unfold filled. simpl.
  rewrite expand_app, expand_one, length_app, repeat_length.
  split; [f_equal; f_equal; lia | reflexivity].
Qed.

Lemma stack_helper_store_count : forall dflt c s ks acc,
    filled dflt c ks acc -> NoDup (ks ++ s) ->
    exists acc',
      stack_helper (store_count c) s acc = Some acc' /\
      filled dflt c (ks ++ s) acc' /\
      (forall k, is_visited (acc_copied acc') k = true <->
                 is_visited (acc_copied acc) k = true \/ In k s).
Proof.
  intros dflt c s. induction s as [|key s IH]; intros ks acc F N.
  - exists acc. rewrite app_nil_r. split; [reflexivity|].
    split; [exact F|]. intro k. simpl. tauto.
  - replace (ks ++ key :: s) with ((ks ++ [key]) ++ s) in *
      by (now rewrite <- app_assoc).
    destruct (store_n_filled key (insert key true (acc_copied acc)) F)
      as (r & i & E & F'); [now apply NoDup_app_remove_r in N|].
    destruct (IH _ _ F' N) as (acc' & E' & F'' & Hc).
    exists acc'. cbn [stack_helper]. unfold store_count at 1.
    rewrite E, E'. split; [reflexivity|]. split; [exact F''|].
    intro k. rewrite Hc. simpl. rewrite is_visited_insert.
    intuition (subst; auto).
Qed.

Lemma fold_store_rest_count : forall dflt c l ks acc,
    filled dflt c ks acc -> NoDup ks ->
    (forall k, is_visited (acc_copied acc) k = true <-> In k ks) ->
    exists acc',
      fold_left (store_rest_count c) l (Some acc) = Some acc' /\
      filled dflt c (ks ++ firsts ks l) acc'.
Proof.
  intros dflt c l. induction l as [|x l IH]; intros ks acc F N Hd.
  - exists acc. simpl. now rewrite app_nil_r.
  - cbn [fold_left firsts]. unfold store_rest_count at 2.
    pose proof (index_visited_fst (acc_copied acc) x) as E1.
    pose proof (index_visited_snd (acc_copied acc) x) as E2.
    destruct (index false x (acc_copied acc)) as [b copied1].
    simpl in E1, E2. subst b.
    destruct (is_visited (acc_copied acc) x) eqn:V; cbn [negb].
    + assert (M : memb x ks = true) by (apply memb_In, Hd, V).
      rewrite M.
      apply IH; [exact F | exact N | intro k; simpl; rewrite E2; apply Hd].
    + assert (Nx : ~ In x ks) by (intro I; apply Hd in I; congruence).
      assert (M : memb x ks = false) by now apply memb_false.
      rewrite M.
      assert (N' : NoDup (ks ++ [x])).
      { apply NoDup_app; auto.
        - repeat constructor. intros [].
        - intros a Ia [<- | []]. contradiction. }
      destruct (store_n_filled x (insert x true copied1) F N')
        as (r & i & E & F').
      rewrite E.
      replace (ks ++ x :: firsts (ks ++ [x]) l)
        with ((ks ++ [x]) ++ firsts (ks ++ [x]) l)
        by (now rewrite <- app_assoc).
      apply IH; [exact F' | exact N' |].
      intro k. simpl. rewrite is_visited_insert, E2, Hd, in_app_iff.
      simpl. intuition (subst; auto).
Qed.

Lemma array_merge_eq : forall dflt s c,
    NoDup s ->
    array_merge dflt s c = Returns (expand c s ++ expand c (firsts s c)).
Proof.
  intros dflt s c N. unfold array_merge.
  set (acc0 := ArrayAcc (repeat dflt (length c)) 0 []).
  assert (F0 : filled dflt c [] acc0).
  { unfold filled, acc0. simpl. now rewrite Nat.sub_0_r. }
  destruct (stack_helper_store_count s F0 N) as (acc1 & E1 & F1 & Hc).
  rewrite E1. simpl app in F1.
  destruct (fold_store_rest_count c F1 N) as (acc2 & E2 & [Er _]).
  { intro k. rewrite Hc. unfold acc0, is_visited. simpl.
    intuition discriminate. }
  rewrite E2. f_equal. rewrite Er.
  rewrite expand_length_all;
    [| now apply nodup_order | apply order_covers].
  now rewrite Nat.sub_diag, app_nil_r, expand_app.
Qed.

End Merge.

(** ** Merging the order with the contents of an associative container *)

Section AssociativeMerge.
Context {Key : Type} `{KeyOrder Key} {T : Type}.
Implicit Types (c l : std_map Key T) (s : stack_type Key).

Lemma stack_helper_copy_at : forall c s acc,
    (forall k, In k s -> In k (keys c)) ->
    exists copied',
      stack_helper (copy_at c) s acc =
      Some (fst acc ++ lookup_all c s, copied') /\
      (forall k, is_visited copied' k = true <->
                 is_visited (snd acc) k = true \/ In k s).
Proof.
  intros c s. induction s as [|key s IH]; intros [result copied] Hs.
  - exists copied. simpl. rewrite app_nil_r. split; auto. tauto.
  - assert (Ik : find key c <> None)
      by (apply find_in_keys, Hs; now left).
    destruct (find key c) as [value|] eqn:F; [|congruence].
    destruct (IH (result ++ [(key, value)], insert key true copied))
      as (cp & E & Hc); [intros k I; apply Hs; now right|].
    exists cp. cbn [stack_helper]. unfold copy_at at 1, at_.
    rewrite F, E. simpl fst in *. simpl snd in *. split.
    + unfold lookup_all. simpl. rewrite F. now rewrite <- app_assoc.
    + intro k. rewrite Hc, is_visited_insert. simpl.
      intuition (subst; auto).
Qed.

Lemma stack_helper_copy_at_missing : forall c s acc k,
    In k s -> ~ In k (keys c) -> stack_helper (copy_at c) s acc = None.
Proof.
  intros c s. induction s as [|key s IH]; intros [result copied] k I N.
  - destruct I.
  - cbn [stack_helper]. unfold copy_at at 1, at_.
    destruct (find key c) as [value|] eqn:F.
    + destruct I as [-> | I]; [|now apply IH with k].
      apply find_some_keys in F. contradiction.
    + reflexivity.
Qed.

Lemma copy_rest_eq : forall acc (node : Key * T),
    copy_rest acc node =
    if is_visited (snd acc) (fst node)
    then (fst acc, snd (index false (fst node) (snd acc)))
    else (fst acc ++ [node],
          insert (fst node) true (snd (index false (fst node) (snd acc)))).
Proof.
  intros [result copied] [key value]. unfold copy_rest.
  simpl fst. simpl snd. rewrite <- index_visited_fst.
  destruct (index false key copied) as [b copied1]. simpl.
  now destruct b.
Qed.

Lemma fold_copy_rest : forall l acc done,
    NoDup (keys l) ->
    (forall k, is_visited (snd acc) k = true <-> In k done) ->
    fst (fold_left copy_rest l acc) =
    fst acc ++ filter (fun node => negb (memb (fst node) done)) l.
Proof.
  induction l as [|[key value] l IH]; intros acc done N Hd.
  - simpl. now rewrite app_nil_r.
  - simpl in N. inversion N as [|? ? Nk N']; subst.
    cbn [fold_left filter]. rewrite copy_rest_eq. cbn [fst].
    destruct (is_visited (snd acc) key) eqn:V.
    + assert (M : memb key done = true) by (apply memb_In, Hd, V).
      rewrite M. simpl negb. cbv iota. rewrite (IH _ done); auto.
      intro k. simpl snd. rewrite index_visited_snd. apply Hd.
    + assert (M : memb key done = false).
      { apply memb_false. intro I. apply Hd in I. congruence. }
      rewrite M. simpl negb. cbv iota.
      rewrite (IH _ (key :: done)); auto.
      * simpl fst. rewrite <- app_assoc. simpl. do 2 f_equal.
        apply filter_ext_in. intros [k v] I. simpl. f_equal.
        unfold memb. simpl.
        assert (E : key_eqb k key = false).
        { apply key_eqb_neq. intros ->. apply Nk.
          apply in_map_iff. now exists (key, v). }
        now rewrite E.
      * intro k. simpl snd.
        rewrite is_visited_insert, index_visited_snd, Hd. simpl.
        intuition (subst; auto).
Qed.

Lemma associative_merge_eq : forall s c,
    NoDup (keys c) -> (forall k, In k s -> In k (keys c)) ->
    associative_merge s c =
    Returns (lookup_all c s ++
             filter (fun node => negb (memb (fst node) s)) c).
Proof.
  intros s c N Hs. unfold associative_merge.
  destruct (@stack_helper_copy_at c s ([], []) Hs) as (cp & E & Hc).
  rewrite E. f_equal.
  rewrite (@fold_copy_rest c _ s N).
  - reflexivity.
  - intro k. simpl snd. rewrite Hc. unfold is_visited. simpl.
    intuition discriminate.
Qed.

Lemma associative_merge_throws : forall s c k,
    In k s -> ~ In k (keys c) ->
    associative_merge s c = Throws_out_of_range.
Proof.
  intros s c k I N. unfold associative_merge.
  now rewrite (@stack_helper_copy_at_missing c s ([], []) k I N).
Qed.

Lemma count_nodup : forall k (l : list Key),
    NoDup l -> In k l -> count k l = 1.
Proof.
  intros k l N. unfold count. induction N as [|x l Nx N IH]; simpl.
  - tauto.
  - intros [-> | I].
    + rewrite key_eqb_refl. simpl. f_equal.
      apply length_zero_iff_nil.
      destruct (filter (key_eqb k) l) as [|y f] eqn:F; auto.
      assert (Iy : In y (filter (key_eqb k) l)) by (rewrite F; now left).
      apply filter_In in Iy. destruct Iy as [Iy E].
      apply key_eqb_eq in E. subst. contradiction.
    + assert (E : key_eqb k x = false)
        by (apply key_eqb_neq; intros ->; contradiction).
      rewrite E. auto.
Qed.

Lemma lookup_all_length : forall c s,
    (forall k, In k s -> In k (keys c)) ->
    length (lookup_all c s) = length s.
Proof.
  intros c s. unfold lookup_all. induction s as [|k s IH]; intro Hs; auto.
  simpl. rewrite length_app, IH by auto with datatypes.
  assert (I : find k c <> None) by (apply find_in_keys, Hs; now left).
  destruct (find k c); [reflexivity | congruence].
Qed.

Lemma associative_merge_length : forall s c,
    NoDup s -> NoDup (keys c) -> (forall k, In k s -> In k (keys c)) ->
    exists r, associative_merge s c = Returns r /\ length r = length c.
Proof.
  intros s c Ns Nc Hs. rewrite associative_merge_eq by assumption.
  eexists. split; [reflexivity|].
  rewrite length_app, lookup_all_length by assumption.
  assert (E1 : length s = length (filter (fun x => memb x s) (keys c))).
  { rewrite <- sum_counts by assumption.
    clear Ns. induction s as [|k s IH]; simpl; auto.
    rewrite count_nodup, <- IH; auto with datatypes. }
  assert (E2 : length (filter (fun node => negb (memb (fst node) s)) c) =
               length (filter (fun x => negb (memb x s)) (keys c))).
  { unfold keys. now rewrite filter_map_swap, length_map. }
  rewrite E1, E2, List.filter_length. unfold keys. apply length_map.
Qed.

End AssociativeMerge.

(** * The sorter on graphs built by [precede] *)

Section SorterTheorems.
Context {Key : Type} `{KeyOrder Key}.
Implicit Types (edges : list (Key * Key)) (adj : adjacency_type Key).

Lemma topological_sort_build : forall edges,
    exists adj' s,
      topological_sort (build edges) = Some (adj', s) /\
      linearised (build edges) adj' s.
Proof. intro edges. apply topological_sort_sorted, sorted_build. Qed.

(** C1 (topological validity).  For an acyclic graph built by [precede]
    and every declared edge [(v, w)], [topological_sort] returns a stack
    in which, read from the top, [v] is at a position at or before the
    position of [w]; no key is twice on the stack, so these positions are
    the only ones. *)
Theorem topological_validity : forall edges v w,
    acyclic_edges edges -> In (v, w) edges ->
    exists adj' s,
      topological_sort (build edges) = Some (adj', s) /\
      NoDup s /\
      exists i j,
        nth_error s i = Some v /\ nth_error s j = Some w /\ i <= j.
Proof.
  intros edges v w A E.
  destruct (topological_sort_build edges) as (adj' & s & R & L).
  exists adj', s. split; [exact R|]. split; [exact (l_nodup L)|].
  assert (T : topo (successors (build edges)) s)
    by (apply (l_topo L); now apply acyclic_build).
  assert (Iv : In v s).
  { apply (l_vertices L), vertex_build. exists v, w. auto. }
  assert (Ew : In w (successors (build edges) v))
    by now apply in_successors_build.
  destruct (topo_positions _ _ _ _ T Iv Ew) as (i & j & Ei & Ej & Lij).
  exists i, j. repeat split; auto. lia.
Qed.

(** C10.  For every graph built by [precede], with duplicate edges,
    cycles or self-edges as may be, the stack returned by
    [topological_sort] holds every key that is a side of a declared edge,
    each once, and no other key. *)
Theorem stack_holds_each_vertex_once : forall edges,
    exists adj' s,
      topological_sort (build edges) = Some (adj', s) /\
      NoDup s /\
      forall x, In x s <-> is_vertex edges x.
Proof.
  intro edges.
  destruct (topological_sort_build edges) as (adj' & s & R & L).
  exists adj', s. split; [exact R|]. split; [exact (l_nodup L)|].
  intro x. rewrite (l_vertices L). apply vertex_build.
Qed.

(** C6.  [precede] is a total function that appends [w] to the vector of
    [v], also when [v = w]; and for every graph built by [precede],
    cyclic or not, [topological_sort] returns: the traversal ends within
    a depth and a number of iterations bounded by the number of vertices,
    and a larger bound gives the same result. *)
Theorem topological_sort_terminates : forall edges,
    (exists n, forall fuel,
          n <= fuel ->
          exists r, topological_sort_fuel fuel (build edges) = Some r /\
                    topological_sort (build edges) = Some r) /\
    (forall v w,
        build (edges ++ [(v, w)]) = precede v w (build edges) /\
        successors (precede v w (build edges)) v =
        successors (build edges) v ++ [w]).
Proof.
  intro edges. split.
  - exists (length (vertices (build edges))). intros fuel L.
    destruct (topological_sort_build edges) as (adj' & s & R & _).
    exists (adj', s). split; [|exact R].
    rewrite topological_sort_enough; auto. apply sorted_build.
  - intros v w. split; [apply build_snoc | apply successors_precede_same].
Qed.

End SorterTheorems.

(** * The adapters *)

Section AdapterTheorems.
Context {Key : Type} `{KeyOrder Key}.
Implicit Types (edges : list (Key * Key)) (adj : adjacency_type Key)
         (c : list Key).

(** The vector adapter returns for all inputs, with as many elements as
    the container holds, and a key that the container lacks is not in
    the result. *)
Lemma vector_sort_total : forall adj c,
    sorted adj ->
    exists adj' s r,
      topological_sort adj = Some (adj', s) /\
      topological_sort_vector_sort (Adapter c adj) =
      Some (Adapter c adj', Returns r) /\
      length r = length c /\
      forall k, ~ In k c -> ~ In k r.
Proof.
  intros adj c S.
  destruct (topological_sort_sorted S) as (adj' & s & R & L).
  exists adj', s, (expand c s ++ expand c (firsts s c)).
  split; [exact R|]. unfold topological_sort_vector_sort. simpl.
  rewrite R, vector_merge_eq. split; [reflexivity|]. split.
  - rewrite <- expand_app. apply expand_length_all.
    + apply nodup_order, (l_nodup L).
    + apply order_covers.
  - intros k N I. apply N. rewrite <- expand_app in I.
    now apply in_expand in I.
Qed.

(** The array adapter never stores past the end of its result and
    returns what the vector adapter returns. *)
Lemma array_sort_as_vector : forall dflt adj c,
    sorted adj ->
    exists a' r,
      topological_sort_vector_sort (Adapter c adj) =
      Some (a', Returns r) /\
      topological_sort_array_sort dflt (Adapter c adj) =
      Some (a', Returns r).
Proof.
  intros dflt adj c S.
  destruct (topological_sort_sorted S) as (adj' & s & R & L).
  unfold topological_sort_vector_sort, topological_sort_array_sort.
  simpl. rewrite R, vector_merge_eq, (array_merge_eq _ _ (l_nodup L)).
  eauto.
Qed.

(** C4, as amended.  A call of [topological_sort] or of [sort] leaves
    the container as it was and every vector of successors as it was:
    a look-up of any key reads the same vector before and after, every
    node of [adj] is kept with its vector; the only change is that each
    vertex without a node in [adj] is given one, with an empty vector, so
    that afterwards the keys of [adj] are the vertices of the graph. *)
Theorem sort_frame : forall adj,
    sorted adj ->
    exists adj' s,
      topological_sort adj = Some (adj', s) /\
      (forall k, successors adj' k = successors adj k) /\
      (forall k l, find k adj = Some l -> find k adj' = Some l) /\
      (forall k l, find k adj' = Some l ->
                   find k adj = Some l \/
                   (find k adj = None /\ l = [] /\
                    vertex (successors adj) adj k)) /\
      (forall k, In k (keys adj') <-> vertex (successors adj) adj k) /\
      (forall k, vertex (successors adj) adj k -> find k adj = None ->
                 find k adj' = Some []) /\
      (forall c, exists r,
            topological_sort_vector_sort (Adapter c adj) =
            Some (Adapter c adj', r)) /\
      (forall dflt c, exists r,
            topological_sort_array_sort dflt (Adapter c adj) =
            Some (Adapter c adj', r)) /\
      (forall (T : Type) (m : std_map Key T), exists r,
            topological_sort_map_sort (Adapter m adj) =
            Some (Adapter m adj', r) /\
            topological_sort_unordered_map_sort (Adapter m adj) =
            Some (Adapter m adj', r)).
Proof.
  intros adj S.
  destruct (topological_sort_sorted S) as (adj' & s & R & L).
  exists adj', s. split; [exact R|].
  split; [exact (l_successors L)|].
  split; [exact (l_kept L)|].
  split.
  { intros k l F. destruct (l_added L _ F) as [F0 | (F0 & -> & I)]; auto.
    right. repeat split; auto. now apply (l_vertices L). }
  assert (K : forall k, In k (keys adj') <-> vertex (successors adj) adj k).
  { intro k. rewrite (l_keys L). apply (l_vertices L). }
  split; [exact K|].
  split.
  { intros k V N. apply K, find_in_keys in V.
    destruct (find k adj') as [l|] eqn:F; [|congruence].
    destruct (l_added L _ F) as [F0 | (_ & -> & _)];
      [congruence | reflexivity]. }
  split; [|split].
  - intro c. unfold topological_sort_vector_sort. simpl. rewrite R. eauto.
  - intros dflt c. unfold topological_sort_array_sort. simpl.
    rewrite R. eauto.
  - intros T m.
    unfold topological_sort_map_sort, topological_sort_unordered_map_sort,
      associative_sort.
    simpl. rewrite R. eauto.
Qed.

(** C5, as amended.  After a first call every vertex has a node in
    [adj]; from then on a call leaves [adj] as it is, so the second call
    and every later one return the same stack and the same sequence.
    The first call returns what the second returns when every successor
    already had a node of its own. *)
Theorem repeated_sort_stable : forall adj,
    sorted adj ->
    exists adj1 s1 s2,
      topological_sort adj = Some (adj1, s1) /\
      topological_sort adj1 = Some (adj1, s2) /\
      (closed adj -> adj1 = adj /\ s2 = s1) /\
      (forall c,
          topological_sort_vector_sort (Adapter c adj) =
          Some (Adapter c adj1, vector_merge s1 c) /\
          topological_sort_vector_sort (Adapter c adj1) =
          Some (Adapter c adj1, vector_merge s2 c)) /\
      (forall dflt c,
          topological_sort_array_sort dflt (Adapter c adj) =
          Some (Adapter c adj1, array_merge dflt s1 c) /\
          topological_sort_array_sort dflt (Adapter c adj1) =
          Some (Adapter c adj1, array_merge dflt s2 c)) /\
      (forall (T : Type) (m : std_map Key T),
          topological_sort_map_sort (Adapter m adj) =
          Some (Adapter m adj1, associative_merge s1 m) /\
          topological_sort_map_sort (Adapter m adj1) =
          Some (Adapter m adj1, associative_merge s2 m)).
Proof.
  intros adj S.
  destruct (topological_sort_sorted S) as (adj1 & s1 & R1 & L1).
  destruct (topological_sort_sorted (l_sorted L1))
    as (adj2 & s2 & R2 & L2).
  assert (E : adj2 = adj1)
    by (apply (l_same L2); exact (linearised_closed L1)).
  subst adj2.
  exists adj1, s1, s2. split; [exact R1|]. split; [exact R2|].
  split.
  { intro C. pose proof (l_same L1 C) as E. split; [exact E|].
    subst adj1. congruence. }
  split; [|split].
  - intro c. unfold topological_sort_vector_sort. simpl.
    now rewrite R1, R2.
  - intros dflt c. unfold topological_sort_array_sort. simpl.
    now rewrite R1, R2.
  - intros T m. unfold topological_sort_map_sort, associative_sort. simpl.
    now rewrite R1, R2.
Qed.

(** C9, as amended.  In the result of [sort] the keys of the stack,
    which are the vertices of the graph, come first, in the order of the
    stack.  The vector and the array adapter give each of them all its
    occurrences in the container, and then the other keys of the
    container in the order of their first occurrence there, each again
    with all its occurrences.  The map adapters, when every vertex is a
    key of the container, give one node for each vertex and then the
    other nodes in the order of the container. *)
Theorem unconstrained_after_constrained : forall edges,
    exists adj' s,
      topological_sort (build edges) = Some (adj', s) /\
      (forall x, In x s <-> is_vertex edges x) /\
      (forall c,
          topological_sort_vector_sort (Adapter c (build edges)) =
          Some (Adapter c adj',
                Returns
                  (expand c s ++
                   expand c (first_occurrences
                               (filter (fun x => negb (memb x s)) c))))) /\
      (forall dflt c,
          topological_sort_array_sort dflt (Adapter c (build edges)) =
          Some (Adapter c adj',
                Returns
                  (expand c s ++
                   expand c (first_occurrences
                               (filter (fun x => negb (memb x s)) c))))) /\
      (forall (T : Type) (m : std_map Key T),
          NoDup (keys m) ->
          (forall k, is_vertex edges k -> In k (keys m)) ->
          topological_sort_map_sort (Adapter m (build edges)) =
          Some (Adapter m adj',
                Returns
                  (lookup_all m s ++
                   filter (fun node => negb (memb (fst node) s)) m)) /\
          topological_sort_unordered_map_sort (Adapter m (build edges)) =
          Some (Adapter m adj',
                Returns
                  (lookup_all m s ++
                   filter (fun node => negb (memb (fst node) s)) m))).
Proof.
  intro edges.
  destruct (topological_sort_build edges) as (adj' & s & R & L).
  assert (V : forall x, In x s <-> is_vertex edges x).
  { intro x. rewrite (l_vertices L). apply vertex_build. }
  exists adj', s. split; [exact R|]. split; [exact V|].
  split; [|split].
  - intro c. unfold topological_sort_vector_sort. simpl.
    now rewrite R, vector_merge_eq, firsts_unconstrained.
  - intros dflt c. unfold topological_sort_array_sort. simpl.
    now rewrite R, (array_merge_eq _ _ (l_nodup L)), firsts_unconstrained.
  - intros T m N P.
    unfold topological_sort_map_sort, topological_sort_unordered_map_sort,
      associative_sort.
    simpl. rewrite R, associative_merge_eq; auto.
    intros k I. now apply P, V.
Qed.

(** Where the map adapters do return, the result has the size of the
    container. *)
Lemma map_sort_cardinality : forall edges (T : Type) (m : std_map Key T),
    NoDup (keys m) ->
    (forall k, is_vertex edges k -> In k (keys m)) ->
    exists a' r,
      topological_sort_map_sort (Adapter m (build edges)) =
      Some (a', Returns r) /\ length r = length m.
Proof.
  intros edges T m N P.
  destruct (topological_sort_build edges) as (adj' & s & R & L).
  destruct (@associative_merge_length Key _ T s m (l_nodup L) N)
    as (r & E & Len).
  { intros k I. apply P. apply vertex_build, (l_vertices L), I. }
  exists (Adapter m adj'), r. split; [|exact Len].
  unfold topological_sort_map_sort, associative_sort. simpl.
  now rewrite R, E.
Qed.

(** A vertex that is no key of the container makes the map adapters
    leave [sort] by the exception of [at]. *)
Lemma map_sort_throws : forall edges (T : Type) (m : std_map Key T) k,
    is_vertex edges k -> ~ In k (keys m) ->
    exists a',
      topological_sort_map_sort (Adapter m (build edges)) =
      Some (a', Throws_out_of_range).
Proof.
  intros edges T m k V N.
  destruct (topological_sort_build edges) as (adj' & s & R & L).
  exists (Adapter m adj').
  unfold topological_sort_map_sort, associative_sort. simpl.
  rewrite R, (@associative_merge_throws Key _ T s m k); auto.
  now apply (l_vertices L), vertex_build.
Qed.

End AdapterTheorems.

(** * The examples of main.cpp *)

(** C7 (Scenario A).  With the six edges declared in the order of
    [BasicStackExample], popping the stack returned by [topological_sort]
    from the top, as [print_stack] does, gives F, E, A, C, D, B. *)
Theorem scenario_A :
  exists adj' s,
    topological_sort (build scenario_edges) = Some (adj', s) /\
    stack_helper (fun key printed => Some (printed ++ [key])) s [] =
    Some ["F"; "E"; "A"; "C"; "D"; "B"].
Proof. do 2 eexists. split; vm_compute; reflexivity. Qed.

(** C8 (Scenario C).  The vector adapter holding A x3, B x2, C x2, D x2,
    E x2, F x3, with the six edges and Z -> F declared and no Z in the
    container, returns F,F,F,E,E,A,A,A,C,C,D,D,B,B. *)
Theorem scenario_C :
  exists a',
    topological_sort_vector_sort
      (Adapter scenario_vector (build (scenario_edges ++ [("Z", "F")]))) =
    Some (a',
          Returns ["F"; "F"; "F"; "E"; "E"; "A"; "A"; "A"; "C"; "C"; "D";
                   "D"; "B"; "B"]) /\
    contents a' = scenario_vector /\
    length scenario_vector = 14 /\ ~ In "Z" scenario_vector.
Proof.
  eexists. split; [vm_compute; reflexivity|].
  split; [reflexivity|]. split; [reflexivity|].
  simpl. intuition discriminate.
Qed.

(** C2, the failing input.  With [precede("Z", "F")] declared and the map
    holding F only, [sort] of the map adapter does not return: [at("Z")]
    throws.  The vector adapter on the same graph returns and drops Z. *)
Theorem map_sort_absent_key_throws :
  topological_sort_map_sort (Adapter [("F", 5)] (build [("Z", "F")])) =
  Some (Adapter [("F", 5)] [("F", []); ("Z", ["F"])], Throws_out_of_range)
  /\
  topological_sort_vector_sort (Adapter ["F"] (build [("Z", "F")])) =
  Some (Adapter ["F"] [("F", []); ("Z", ["F"])], Returns ["F"]).
Proof. split; vm_compute; reflexivity. Qed.

(** C3, the failing input.  The unordered map of [STLUnorderedMapExample]
    without its node for Z, with Z -> F declared: [sort] returns no
    sequence at all, of the size of the container or of any other. *)
Theorem map_sort_returns_no_sequence :
  forall a' r,
    topological_sort_unordered_map_sort
      (Adapter [("A", 0); ("B", 1); ("C", 2); ("D", 3); ("E", 4); ("F", 5)]
               (build (scenario_edges ++ [("Z", "F")]))) <>
    Some (a', Returns r).
Proof. intros a' r. vm_compute. discriminate. Qed.

(** C4 as stated fails: the call gives nodes to A and C. *)
Lemma sort_adds_nodes :
  exists adj' s,
    topological_sort (build [("B", "C"); ("B", "A")]) = Some (adj', s) /\
    build [("B", "C"); ("B", "A")] = [("B", ["C"; "A"])] /\
    adj' = [("A", []); ("B", ["C"; "A"]); ("C", [])] /\
    adj' <> build [("B", "C"); ("B", "A")].
Proof.
  do 2 eexists. split; [vm_compute; reflexivity|].
  split; [reflexivity|]. split; [reflexivity|].
  vm_compute. discriminate.
Qed.

(** C5 as stated fails: the vector of [STLVectorExample], sorted twice with
    nothing changed in between, comes back in two different orders. *)
Lemma second_sort_differs :
  exists a1 r1 a2 r2,
    topological_sort_vector_sort
      (Adapter scenario_vector (build (scenario_edges ++ [("Z", "F")]))) =
    Some (a1, Returns r1) /\
    contents a1 = scenario_vector /\
    topological_sort_vector_sort a1 = Some (a2, Returns r2) /\
    r1 = ["F"; "F"; "F"; "E"; "E"; "A"; "A"; "A"; "C"; "C"; "D"; "D"; "B";
          "B"] /\
    r2 = ["F"; "F"; "F"; "E"; "E"; "C"; "C"; "D"; "D"; "B"; "B"; "A"; "A";
          "A"] /\
    r1 <> r2.
Proof.
  do 4 eexists. split; [vm_compute; reflexivity|].
  split; [reflexivity|]. split; [vm_compute; reflexivity|].
  split; [reflexivity|]. split; [reflexivity|]. discriminate.
Qed.

(** C9 as stated fails: X, Y, X are unconstrained and leave the vector
    adapter as X, X, Y. *)
Lemma vector_regroups_unconstrained :
  exists a' r,
    topological_sort_vector_sort
      (Adapter ["X"; "A"; "Y"; "X"; "B"] (build [("A", "B")])) =
    Some (a', Returns r) /\
    r = ["A"; "B"; "X"; "X"; "Y"] /\
    filter (fun x => negb (memb x ["A"; "B"])) r <>
    filter (fun x => negb (memb x ["A"; "B"])) ["X"; "A"; "Y"; "X"; "B"].
Proof.
  do 2 eexists. split; [vm_compute; reflexivity|].
  split; [reflexivity|]. vm_compute. discriminate.
Qed.

(** ** Instances *)

Lemma topological_validity_witness :
  acyclic_edges scenario_edges /\ In ("F", "C") scenario_edges /\
  exists adj' s,
    topological_sort (build scenario_edges) = Some (adj', s) /\
    NoDup s /\
    exists i j,
      nth_error s i = Some "F" /\ nth_error s j = Some "C" /\ i <= j.
Proof.
  assert (A : acyclic_edges scenario_edges)
    by (apply ranked_acyclic with scenario_rank; reflexivity).
  assert (I : In ("F", "C") scenario_edges) by (simpl; auto).
  split; [exact A|]. split; [exact I|].
  exact (@topological_validity string _ scenario_edges "F" "C" A I).
Defined.

Lemma sort_frame_witness :
  sorted (build [("B", "C"); ("B", "A")]) /\
  exists adj' s,
    topological_sort (build [("B", "C"); ("B", "A")]) = Some (adj', s) /\
    (forall k,
        successors adj' k = successors (build [("B", "C"); ("B", "A")]) k) /\
    find "A" adj' = Some [] /\ find "C" adj' = Some [].
Proof.
  assert (S : sorted (build [("B", "C"); ("B", "A")]))
    by (vm_compute; repeat constructor).
  split; [exact S|].
  destruct (sort_frame S) as (adj' & s & R & F & _ & _ & _ & V & _).
  exists adj', s. split; [exact R|]. split; [exact F|].
  split; apply V; try reflexivity; right; exists "B"; simpl; tauto.
Defined.

Lemma repeated_sort_stable_witness :
  sorted (build [("B", "C"); ("B", "A")]) /\
  exists adj1 s1 s2,
    topological_sort (build [("B", "C"); ("B", "A")]) = Some (adj1, s1) /\
    topological_sort adj1 = Some (adj1, s2).
Proof.
  assert (S : sorted (build [("B", "C"); ("B", "A")]))
    by (vm_compute; repeat constructor).
  split; [exact S|].
  destruct (repeated_sort_stable S) as (adj1 & s1 & s2 & R1 & R2 & _).
  exists adj1, s1, s2. split; [exact R1 | exact R2].
Defined.

Lemma unconstrained_after_constrained_witness :
  NoDup (keys scenario_map) /\
  (forall k, is_vertex scenario_edges k -> In k (keys scenario_map)) /\
  exists adj' s,
    topological_sort (build scenario_edges) = Some (adj', s) /\
    topological_sort_map_sort (Adapter scenario_map (build scenario_edges)) =
    Some (Adapter scenario_map adj',
          Returns (lookup_all scenario_map s ++
                   filter (fun node => negb (memb (fst node) s))
                          scenario_map)).
Proof.
  assert (N : NoDup (keys scenario_map)).
  { simpl. repeat (constructor; [simpl; intuition discriminate|]).
    constructor. }
  assert (P : forall k, is_vertex scenario_edges k ->
                        In k (keys scenario_map)).
  { intros k (v & w & I & E). simpl in I.
    repeat (destruct I as [I | I];
            [injection I as <- <-; destruct E as [-> | ->]; simpl; tauto|]).
    destruct I. }
  split; [exact N|]. split; [exact P|].
  destruct (unconstrained_after_constrained scenario_edges)
    as (adj' & s & R & _ & _ & _ & M).
  exists adj', s. split; [exact R|].
  exact (proj1 (M nat scenario_map N P)).
Defined.

(** * Further properties *)

(** ** What [precede] builds *)

Section BuildMore.
Context {Key : Type} `{KeyOrder Key}.
Implicit Types (edges : list (Key * Key)).

(** X1.  The vector of successors of a key holds the right-hand sides of
    the edges declared with that key on the left, in the order of the
    calls of [precede], a repeated edge as often as it was declared. *)
Theorem successors_in_declaration_order : forall edges v,
    successors (build edges) v =
    map snd (filter (fun e => key_eqb (fst e) v) edges).
Proof.
intro edges. induction edges as [|[v0 w0] edges IH] using rev_ind; intro v.
- reflexivity.
- rewrite build_snoc, filter_app, map_app. simpl.
  destruct (key_eq_dec v v0) as [-> | N].
  + rewrite successors_precede_same, IH, key_eqb_refl. reflexivity.
  + rewrite successors_precede_other, IH by assumption.
    assert (E : key_eqb v0 v = false)
      by (apply key_eqb_neq; congruence).
    rewrite E. simpl. now rewrite app_nil_r.
Qed.

(** X2.  [precede(v, w)] gives a node to [v] only: the keys of [adj] are
    the left-hand sides of the declared edges, in increasing order, and a
    key declared only as a successor has no node. *)
Theorem precede_keys_are_left_sides : forall edges,
    sorted (build edges) /\
    NoDup (keys (build edges)) /\
    forall k, In k (keys (build edges)) <-> exists w, In (k, w) edges.
Proof.
intro edges. pose proof (sorted_build edges) as S.
split; [exact S|]. split; [|apply in_keys_build].
unfold sorted in S. induction S as [|k l S IH F]; constructor; auto.
intro I. rewrite Forall_forall in F. apply F in I.
rewrite key_lt_irrefl in I. discriminate.
Qed.

(** X3.  After [topological_sort] the keys of [adj] are the vertices of
    the graph, the sides of the declared edges, still in increasing order:
    every successor has been given a node of its own. *)
Theorem sort_gives_every_vertex_a_node : forall edges,
    exists adj' s,
      topological_sort (build edges) = Some (adj', s) /\
      sorted adj' /\
      (forall k, In k (keys adj') <-> is_vertex edges k) /\
      closed adj'.
Proof.
intro edges.
destruct (topological_sort_sorted (sorted_build edges))
  as (adj' & s & R & L).
exists adj', s. split; [exact R|]. split; [exact (l_sorted L)|]. split.
- intro k. rewrite (l_keys L), (l_vertices L). apply vertex_build.
- exact (linearised_closed L).
Qed.

End BuildMore.

(** ** The sequence adapters *)

Section SequenceMore.
Context {Key : Type} `{KeyOrder Key}.
Implicit Types (edges : list (Key * Key)) (adj : adjacency_type Key)
         (c l ks : list Key).

Lemma count_app : forall k l1 l2,
    count k (l1 ++ l2) = count k l1 + count k l2.
Proof. intros. unfold count. now rewrite filter_app, length_app. Qed.

Lemma count_repeat : forall k a n,
    count k (repeat a n) = if key_eqb k a then n else 0.
Proof.
intros k a n. unfold count. induction n as [|n IH]; simpl.
- now destruct (key_eqb k a).
- destruct (key_eqb k a); simpl; auto.
Qed.

Lemma count_expand : forall c ks k,
    NoDup ks ->
    count k (expand c ks) = if memb k ks then count k c else 0.
Proof.
intros c ks k N. induction N as [|a ks Na N IH].
- reflexivity.
- change (expand c (a :: ks)) with (repeat a (count a c) ++ expand c ks).
  rewrite count_app, count_repeat, IH. unfold memb at 2. simpl.
  fold (memb k ks). destruct (key_eqb k a) eqn:E; simpl; [|reflexivity].
  apply key_eqb_eq in E. subst a. apply memb_false in Na.
  rewrite Na. lia.
Qed.

Lemma count_count_occ : forall l k, count_occ key_eq_dec l k = count k l.
Proof.
intros l k. unfold count. induction l as [|x l IH]; simpl; auto.
destruct (key_eq_dec x k) as [-> | N].
- rewrite key_eqb_refl. simpl. now rewrite IH.
- assert (E : key_eqb k x = false) by (apply key_eqb_neq; congruence).
  now rewrite E.
Qed.

Lemma count_merged : forall s c k,
    NoDup s -> count k (expand c s ++ expand c (firsts s c)) = count k c.
Proof.
intros s c k N. rewrite <- expand_app, count_expand by now apply nodup_order.
destruct (memb k (s ++ firsts s c)) eqn:M; [reflexivity|].
apply memb_false in M. symmetry.
destruct (count k c) eqn:E; [reflexivity|]. exfalso. apply M.
apply order_covers, count_In. lia.
Qed.

(** X4.  Whatever the graph and the contents, [sort] of the vector adapter
    returns a rearrangement of the container: every key as often as the
    container holds it, no key added and none lost. *)
Theorem vector_sort_permutes : forall adj c,
    sorted adj ->
    exists a' r,
      topological_sort_vector_sort (Adapter c adj) = Some (a', Returns r) /\
      contents a' = c /\ Permutation c r.
Proof.
intros adj c S.
destruct (topological_sort_sorted S) as (adj' & s & R & L).
exists (Adapter c adj'), (expand c s ++ expand c (firsts s c)).
unfold topological_sort_vector_sort. simpl. rewrite R, vector_merge_eq.
split; [reflexivity|]. split; [reflexivity|].
apply (Permutation_count_occ key_eq_dec). intro k.
rewrite !count_count_occ. symmetry. apply count_merged, (l_nodup L).
Qed.

(** X5.  [sort] of the array adapter never writes outside its result
    array: the stores fill the [N] places exactly, and the result is the
    sequence the vector adapter returns for the same contents and graph. *)
Theorem array_sort_fills_exactly : forall dflt adj c,
    sorted adj ->
    exists a' r,
      topological_sort_array_sort dflt (Adapter c adj) =
      Some (a', Returns r) /\
      topological_sort_vector_sort (Adapter c adj) = Some (a', Returns r) /\
      length r = length c /\ Permutation c r.
Proof.
intros dflt adj c S.
destruct (topological_sort_sorted S) as (adj' & s & R & L).
exists (Adapter c adj'), (expand c s ++ expand c (firsts s c)).
unfold topological_sort_vector_sort, topological_sort_array_sort. simpl.
rewrite R, vector_merge_eq, (array_merge_eq _ _ (l_nodup L)).
split; [reflexivity|]. split; [reflexivity|].
assert (P : Permutation c (expand c s ++ expand c (firsts s c))).
{ apply (Permutation_count_occ key_eq_dec). intro k.
  rewrite !count_count_occ. symmetry. apply count_merged, (l_nodup L). }
split; [|exact P]. symmetry. now apply Permutation_length.
Qed.

Lemma expand_not_in : forall c ks k, ~ In k ks -> ~ In k (expand c ks).
Proof. intros c ks k N I. apply in_expand in I. tauto. Qed.

(** X6.  In the result of the vector adapter the occurrences of a key are
    next to one another: for every key the result is a part without the
    key, then all its occurrences, then a part without the key. *)
Theorem vector_sort_groups_duplicates : forall adj c k,
    sorted adj ->
    exists a' l1 l2,
      topological_sort_vector_sort (Adapter c adj) =
      Some (a', Returns (l1 ++ repeat k (count k c) ++ l2)) /\
      ~ In k l1 /\ ~ In k l2.
Proof.
intros adj c k S.
destruct (topological_sort_sorted S) as (adj' & s & R & L).
unfold topological_sort_vector_sort. simpl. rewrite R, vector_merge_eq.
rewrite <- expand_app.
pose proof (nodup_order c (l_nodup L)) as N.
destruct (in_dec key_eq_dec k (s ++ firsts s c)) as [I | I].
- apply in_split in I. destruct I as (a & b & E). rewrite E in *.
  apply NoDup_remove_2 in N. rewrite in_app_iff in N.
  exists (Adapter c adj'), (expand c a), (expand c b).
  split; [|split; apply expand_not_in; tauto].
  change (k :: b) with ([k] ++ b). now rewrite !expand_app, expand_one.
- exists (Adapter c adj'), (expand c (s ++ firsts s c)), [].
  assert (Z : count k c = 0).
  { destruct (count k c) eqn:E; [reflexivity|]. exfalso. apply I.
    apply order_covers, count_In. lia. }
  rewrite Z. simpl. rewrite app_nil_r.
  split; [reflexivity|]. split; [now apply expand_not_in | tauto].
Qed.

End SequenceMore.

(** ** The order of the result *)

Section OrderMore.
Context {Key : Type} `{KeyOrder Key}.
Implicit Types (edges : list (Key * Key)) (adj : adjacency_type Key)
         (c l ks : list Key) (s : stack_type Key).

Lemma topo_split : forall (G : Key -> list Key) s v w,
    topo G s -> In v s -> In w (G v) ->
    exists a b, s = a ++ v :: b /\ In w b.
Proof.
intros G s v w. induction s as [|x s IH]; simpl; [tauto|].
intros [Hx T] [-> | I] E.
- exists [], s. split; [reflexivity | now apply Hx].
- destruct (IH T I E) as (a & b & -> & Iw).
  exists (x :: a), b. split; [reflexivity | exact Iw].
Qed.

(** A declared edge of an acyclic graph cuts the stack in two: [v] and
    what is above it, without [w]; what is below [v], with [w] and
    without [v]. *)
Lemma edge_cuts_stack : forall edges v w,
    acyclic_edges edges -> In (v, w) edges ->
    exists adj' a b,
      topological_sort (build edges) = Some (adj', a ++ v :: b) /\
      linearised (build edges) adj' (a ++ v :: b) /\
      In w b /\ ~ In w (a ++ [v]) /\ ~ In v b.
Proof.
intros edges v w A E.
destruct (topological_sort_sorted (sorted_build edges))
  as (adj' & s & R & L).
assert (T : topo (successors (build edges)) s)
  by (apply (l_topo L); now apply acyclic_build).
assert (Iv : In v s).
{ apply (l_vertices L), vertex_build. exists v, w. auto. }
assert (Ew : In w (successors (build edges) v))
  by now apply in_successors_build.
destruct (topo_split _ _ _ _ T Iv Ew) as (a & b & -> & Iw).
exists adj', a, b. split; [exact R|]. split; [exact L|].
split; [exact Iw|].
pose proof (l_nodup L) as N. split.
- apply in_split in Iw. destruct Iw as (b1 & b2 & ->).
  replace (a ++ v :: b1 ++ w :: b2) with ((a ++ v :: b1) ++ w :: b2) in N
    by (rewrite <- app_assoc; reflexivity).
  apply NoDup_remove_2 in N. rewrite !in_app_iff in *. simpl in *.
  intuition.
- apply NoDup_remove_2 in N. rewrite in_app_iff in N. tauto.
Qed.

(** X7.  For an acyclic graph and a declared edge [(v, w)], the result of
    the vector adapter, and of the array adapter, has every occurrence of
    [v] before every occurrence of [w]: it is a part without [w] followed
    by a part without [v]. *)
Theorem sequence_sort_respects_edges : forall edges c v w,
    acyclic_edges edges -> In (v, w) edges ->
    exists a' front back,
      topological_sort_vector_sort (Adapter c (build edges)) =
      Some (a', Returns (front ++ back)) /\
      (forall dflt,
          topological_sort_array_sort dflt (Adapter c (build edges)) =
          Some (a', Returns (front ++ back))) /\
      ~ In w front /\ ~ In v back.
Proof.
intros edges c v w A E.
destruct (edge_cuts_stack v w A E) as (adj' & a & b & R & L & Iw & Nw & Nv).
exists (Adapter c adj'), (expand c (a ++ [v])),
  (expand c b ++ expand c (firsts (a ++ v :: b) c)).
assert (Eq : expand c (a ++ v :: b) ++ expand c (firsts (a ++ v :: b) c) =
             expand c (a ++ [v]) ++
             expand c b ++ expand c (firsts (a ++ v :: b) c)).
{ replace (a ++ v :: b) with ((a ++ [v]) ++ b) at 1
    by (rewrite <- app_assoc; reflexivity).
  now rewrite expand_app, <- app_assoc. }
split; [|split; [|split]].
- unfold topological_sort_vector_sort. simpl.
  now rewrite R, vector_merge_eq, Eq.
- intro dflt. unfold topological_sort_array_sort. simpl.
  now rewrite R, (array_merge_eq _ _ (l_nodup L)), Eq.
- intro I. apply in_expand in I. tauto.
- intro I. apply in_app_iff in I. destruct I as [I | I].
  + apply in_expand in I. tauto.
  + apply in_expand in I. destruct I as [I _]. apply in_firsts in I.
    apply (proj2 I). apply in_app_iff. right. now left.
Qed.

Lemma firsts_distinct : forall l done,
    NoDup l -> (forall x, In x l -> ~ In x done) -> firsts done l = l.
Proof.
induction l as [|x l IH]; intros done N D; simpl; [reflexivity|].
inversion N as [|? ? Nx N']; subst.
assert (M : memb x done = false) by (apply memb_false, D; now left).
rewrite M. f_equal. apply IH; [exact N'|].
intros y I Iy. apply in_app_iff in Iy. destruct Iy as [Iy | [<- | []]].
- apply (D y); auto. now right.
- contradiction.
Qed.

Lemma expand_distinct : forall c ks,
    NoDup c -> (forall k, In k ks -> In k c) -> expand c ks = ks.
Proof.
intros c ks N. induction ks as [|k ks IH]; intro I; [reflexivity|].
change (expand c (k :: ks)) with (repeat k (count k c) ++ expand c ks).
rewrite count_nodup, IH; auto with datatypes.
Qed.

Lemma expand_absent : forall c ks,
    (forall k, In k ks -> ~ In k c) -> expand c ks = [].
Proof.
intros c ks. induction ks as [|k ks IH]; intro A; [reflexivity|].
change (expand c (k :: ks)) with (repeat k (count k c) ++ expand c ks).
rewrite IH by auto with datatypes.
assert (Z : count k c = 0).
{ destruct (count k c) eqn:E; [reflexivity|]. exfalso.
  apply (A k); [now left|]. apply count_In. lia. }
now rewrite Z.
Qed.

(** X8.  When the elements of the container are pairwise different and
    none of them is a vertex of the graph, [sort] of the vector and of the
    array adapter returns the contents in their order, whatever edges are
    declared. *)
Theorem sequence_sort_keeps_unconstrained : forall edges c,
    NoDup c -> (forall k, In k c -> ~ is_vertex edges k) ->
    exists a',
      topological_sort_vector_sort (Adapter c (build edges)) =
      Some (a', Returns c) /\
      forall dflt,
        topological_sort_array_sort dflt (Adapter c (build edges)) =
        Some (a', Returns c).
Proof.
intros edges c N U.
destruct (topological_sort_sorted (sorted_build edges))
  as (adj' & s & R & L).
assert (D : forall k, In k c -> ~ In k s).
{ intros k I Is. apply (U k I). now apply vertex_build, (l_vertices L). }
assert (Eq : expand c s ++ expand c (firsts s c) = c).
{ rewrite expand_absent, firsts_distinct; auto.
  - simpl. now apply expand_distinct.
  - intros k Is Ic. now apply (D k). }
exists (Adapter c adj'). split.
- unfold topological_sort_vector_sort. simpl.
  now rewrite R, vector_merge_eq, Eq.
- intro dflt. unfold topological_sort_array_sort. simpl.
  now rewrite R, (array_merge_eq _ _ (l_nodup L)), Eq.
Qed.

End OrderMore.

(** ** The associative adapters *)

Section AssociativeMore.
Context {Key : Type} `{KeyOrder Key} {T : Type}.
Implicit Types (edges : list (Key * Key)) (m : std_map Key T)
         (s : stack_type Key).

(** X9.  [sort] of the map adapters returns a sequence exactly when every
    vertex of the graph is a key of the container; with a vertex that the
    container lacks it leaves by the exception of [at]. *)
Theorem map_sort_returns_iff : forall edges m,
    (exists a' r,
        topological_sort_map_sort (Adapter m (build edges)) =
        Some (a', Returns r)) <->
    (forall k, is_vertex edges k -> In k (keys m)).
Proof.
intros edges m.
destruct (topological_sort_sorted (sorted_build edges))
  as (adj' & s & R & L).
assert (V : forall k, In k s <-> is_vertex edges k).
{ intro k. rewrite (l_vertices L). apply vertex_build. }
unfold topological_sort_map_sort, associative_sort. simpl. rewrite R.
split.
- intros (a' & r & E) k Ik.
  destruct (in_dec key_eq_dec k (keys m)) as [I | N]; [exact I|].
  exfalso. apply V in Ik.
  rewrite (@associative_merge_throws Key _ T s m k Ik N) in E. discriminate.
- intro P. unfold associative_merge.
  destruct (@stack_helper_copy_at Key _ T m s ([], []))
    as (cp & E & _); [intros k I; now apply P, V|].
  rewrite E. eauto.
Qed.

Lemma find_in_nodup : forall m k (v : T),
    NoDup (keys m) -> In (k, v) m -> find k m = Some v.
Proof.
induction m as [|[k0 v0] m IH]; intros k v N I; [destruct I|].
simpl in N. inversion N as [|? ? Nk N']; subst. simpl.
destruct I as [[= -> ->] | I].
- now rewrite key_eqb_refl.
- assert (E : key_eqb k k0 = false).
  { apply key_eqb_neq. intros ->. apply Nk.
    apply in_map_iff. now exists (k0, v). }
  rewrite E. now apply IH.
Qed.

Lemma in_lookup_all : forall m s k (v : T),
    In (k, v) (lookup_all m s) <-> In k s /\ find k m = Some v.
Proof.
intros m s k v. unfold lookup_all. rewrite in_flat_map. split.
- intros (x & Ix & I). destruct (find x m) as [y|] eqn:F; [|destruct I].
  destruct I as [[= -> ->] | []]. auto.
- intros [I F]. exists k. split; [exact I|]. rewrite F. now left.
Qed.

Lemma lookup_all_app : forall m s1 s2,
    lookup_all m (s1 ++ s2) = lookup_all m s1 ++ lookup_all m s2.
Proof. intros. unfold lookup_all. apply flat_map_app. Qed.

Lemma nodup_lookup_all : forall m s, NoDup s -> NoDup (lookup_all m s).
Proof.
intros m s N. induction N as [|k s Nk N IH]; [constructor|].
change (lookup_all m (k :: s))
  with ((match find k m with Some v => [(k, v)] | None => [] end)
          ++ lookup_all m s).
destruct (find k m) as [v|]; [|exact IH].
simpl. constructor; [|exact IH].
intro I. apply in_lookup_all in I. tauto.
Qed.

Lemma merged_permutation : forall m s,
    NoDup s -> NoDup (keys m) ->
    (forall k, In k s -> In k (keys m)) ->
    Permutation m
      (lookup_all m s ++ filter (fun node => negb (memb (fst node) s)) m).
Proof.
intros m s Ns Nm P.
assert (Nm' : NoDup m) by (apply NoDup_map_inv with (f := fst); exact Nm).
apply NoDup_Permutation; [exact Nm' | |].
- apply NoDup_app;
    [now apply nodup_lookup_all | now apply NoDup_filter |].
  intros [k v] I1 I2. apply in_lookup_all in I1.
  apply filter_In in I2. simpl in I2. destruct I2 as [_ M].
  apply negb_true_iff, memb_false in M. tauto.
- intros [k v]. rewrite in_app_iff, in_lookup_all, filter_In. simpl. split.
  + intro I. destruct (memb k s) eqn:M.
    * left. split; [now apply memb_In | now apply find_in_nodup].
    * right. auto.
  + intros [[_ F] | [I _]]; [now apply find_some_in | exact I].
Qed.

(** X10.  When every vertex is a key of the container, the map adapters
    return the nodes of the container rearranged: each node once, with its
    own value, none added. *)
Theorem map_sort_permutes : forall edges m,
    NoDup (keys m) ->
    (forall k, is_vertex edges k -> In k (keys m)) ->
    exists a' r,
      topological_sort_map_sort (Adapter m (build edges)) =
      Some (a', Returns r) /\
      topological_sort_unordered_map_sort (Adapter m (build edges)) =
      Some (a', Returns r) /\
      contents a' = m /\ Permutation m r.
Proof.
intros edges m N P.
destruct (topological_sort_sorted (sorted_build edges))
  as (adj' & s & R & L).
assert (Ps : forall k, In k s -> In k (keys m)).
{ intros k I. now apply P, vertex_build, (l_vertices L). }
exists (Adapter m adj'),
  (lookup_all m s ++ filter (fun node => negb (memb (fst node) s)) m).
unfold topological_sort_map_sort, topological_sort_unordered_map_sort,
  associative_sort.
simpl. rewrite R, associative_merge_eq by assumption.
split; [reflexivity|]. split; [reflexivity|]. split; [reflexivity|].
apply merged_permutation; auto. exact (l_nodup L).
Qed.

(** X11.  For an acyclic graph whose vertices are all keys of the
    container and a declared edge [(v, w)], the map adapters return the
    node of [v] before the node of [w]. *)
Theorem map_sort_respects_edges : forall edges m v w,
    acyclic_edges edges -> In (v, w) edges ->
    NoDup (keys m) ->
    (forall k, is_vertex edges k -> In k (keys m)) ->
    exists a' front back,
      topological_sort_map_sort (Adapter m (build edges)) =
      Some (a', Returns (front ++ back)) /\
      In v (keys front) /\ ~ In w (keys front) /\
      In w (keys back) /\ ~ In v (keys back).
Proof.
intros edges m v w A E N P.
destruct (edge_cuts_stack v w A E) as (adj' & a & b & R & L & Iw & Nw & Nv).
assert (Ps : forall k, In k (a ++ v :: b) -> In k (keys m)).
{ intros k I. now apply P, vertex_build, (l_vertices L). }
assert (Fk : forall k, In k (a ++ v :: b) -> exists x, find k m = Some x).
{ intros k I. apply Ps, find_in_keys in I.
  destruct (find k m) as [x|]; [now exists x | congruence]. }
assert (K : forall (l : list (Key * T)) k,
           In k (keys l) <-> exists x, In (k, x) l).
{ intros l k. unfold keys. rewrite in_map_iff. split.
  - intros ([k' x] & <- & I). now exists x.
  - intros (x & I). now exists (k, x). }
exists (Adapter m adj'), (lookup_all m (a ++ [v])),
  (lookup_all m b ++
   filter (fun node => negb (memb (fst node) (a ++ v :: b))) m).
split; [|split; [|split; [|split]]].
- unfold topological_sort_map_sort, associative_sort. simpl.
  rewrite R, associative_merge_eq by assumption.
  replace (a ++ v :: b) with ((a ++ [v]) ++ b) at 1
    by (rewrite <- app_assoc; reflexivity).
  now rewrite lookup_all_app, <- app_assoc.
- destruct (Fk v) as (x & F); [apply in_app_iff; right; now left|].
  apply K. exists x. apply in_lookup_all. split; [|exact F].
  apply in_app_iff. right. now left.
- intro I. apply K in I. destruct I as (x & I).
  apply in_lookup_all in I. tauto.
- destruct (Fk w) as (x & F); [apply in_app_iff; right; now right|].
  apply K. exists x. apply in_app_iff. left.
  apply in_lookup_all. auto.
- intro I. apply K in I. destruct I as (x & I).
  apply in_app_iff in I. destruct I as [I | I].
  + apply in_lookup_all in I. tauto.
  + apply filter_In in I. simpl in I. destruct I as [_ M].
    apply negb_true_iff, memb_false in M. apply M.
    apply in_app_iff. right. now left.
Qed.

(** X12.  With no edge declared, the case of a [sort] called before any
    [precede], the map adapters return the nodes of the container in the
    order of the container. *)
Theorem map_sort_without_edges : forall m,
    NoDup (keys m) ->
    topological_sort_map_sort (Adapter m (build [])) =
    Some (Adapter m [], Returns m) /\
    topological_sort_unordered_map_sort (Adapter m (build [])) =
    Some (Adapter m [], Returns m).
Proof.
intros m N.
assert (E : associative_merge [] m = Returns m).
{ rewrite associative_merge_eq; [|exact N | intros k []].
  simpl. f_equal. apply filter_true. }
unfold topological_sort_map_sort, topological_sort_unordered_map_sort,
  associative_sort.
simpl. change (topological_sort (@nil (Key * list Key)))
  with (Some (@nil (Key * list Key), @nil Key)).
now rewrite E.
Qed.

End AssociativeMore.

(** ** An edge declared twice *)

Section Repeated.
Context {Key : Type} `{KeyOrder Key}.

Lemma keys_insert_same : forall {V : Type} k (v1 v2 : V)
                                (m1 m2 : std_map Key V),
    keys m1 = keys m2 -> keys (insert k v1 m1) = keys (insert k v2 m2).
Proof.
intros V k v1 v2 m1. induction m1 as [|[k1 x1] m1 IH]; intros m2 E.
- destruct m2 as [|[k2 x2] m2]; [reflexivity | discriminate].
- destruct m2 as [|[k2 x2] m2]; [discriminate|].
  simpl in E. injection E as <- E. simpl.
  destruct (key_lt k k1); simpl; [now rewrite E|].
  destruct (key_lt k1 k); simpl; [|now rewrite E].
  f_equal. now apply IH.
Qed.

Lemma keys_index_same : forall {V : Type} k (d1 d2 : V)
                               (m1 m2 : std_map Key V),
    keys m1 = keys m2 ->
    keys (snd (index d1 k m1)) = keys (snd (index d2 k m2)).
Proof.
intros V k d1 d2 m1 m2 E. unfold index.
destruct (find k m1) eqn:F1, (find k m2) eqn:F2; simpl; auto.
- apply find_some_keys in F1. apply find_none_keys in F2.
  rewrite E in F1. contradiction.
- apply find_some_keys in F2. apply find_none_keys in F1.
  rewrite E in F1. contradiction.
- now apply keys_insert_same.
Qed.

Lemma keys_insert_present : forall {V : Type} k (v : V) (m : std_map Key V),
    sorted m -> In k (keys m) -> keys (insert k v m) = keys m.
Proof.
intros V k v m. unfold sorted.
induction m as [|[k0 v0] m IH]; intros S I; [destruct I|].
simpl in S. inversion S as [|? ? S' F]; subst. rewrite Forall_forall in F.
simpl. destruct (key_lt k k0) eqn:L1.
- exfalso. destruct I as [<- | I].
  + rewrite key_lt_irrefl in L1. discriminate.
  + apply F in I. rewrite (key_lt_asym _ _ I) in L1. discriminate.
- destruct (key_lt k0 k) eqn:L2; simpl.
  + f_equal. destruct I as [<- | I].
    * rewrite key_lt_irrefl in L2. discriminate.
    * now apply IH.
  + f_equal. now apply key_lt_total.
Qed.

Lemma next_keys : forall {V W : Type} k (m1 : std_map Key V)
                         (m2 : std_map Key W),
    keys m1 = keys m2 -> next k m1 = next k m2.
Proof.
intros V W k m1. induction m1 as [|[k1 x1] m1 IH]; intros m2 E.
- destruct m2 as [|[k2 x2] m2]; [reflexivity | discriminate].
- destruct m2 as [|[k2 x2] m2]; [discriminate|].
  simpl in E. injection E as <- E. simpl.
  destruct (key_lt k k1); auto.
Qed.

Lemma begin_keys : forall {V W : Type} (m1 : std_map Key V)
                          (m2 : std_map Key W),
    keys m1 = keys m2 -> begin m1 = begin m2.
Proof.
intros V W [|[k1 x1] m1] [|[k2 x2] m2] E; try discriminate; auto.
simpl in E. injection E as <- _. reflexivity.
Qed.

Lemma for_successors_app : forall rec l1 l2 (st : state Key),
    for_successors rec (l1 ++ l2) st =
    match for_successors rec l1 st with
    | Some st' => for_successors rec l2 st'
    | None => None
    end.
Proof.
intros rec l1 l2. induction l1 as [|i l1 IH]; intro st; [reflexivity|].
rewrite <- app_comm_cons, !for_successors_cons. cbv zeta.
destruct (seen st i); [apply IH|].
destruct (rec i _); [apply IH | reflexivity].
Qed.

(** The two runs stay alike. *)
Variable G : Key -> list Key.
Variables v w : Key.

Lemma alike_seen : forall stA stB k,
    alike G v w stA stB -> seen stB k = seen stA k.
Proof. intros stA stB k A. unfold seen. now rewrite (a_visited A). Qed.

Lemma alike_read : forall stA stB i,
    alike G v w stA stB ->
    alike G v w
          (State (st_adj stA) (snd (index false i (st_visited stA)))
                 (st_stack stA))
          (State (st_adj stB) (snd (index false i (st_visited stB)))
                 (st_stack stB)).
Proof.
intros stA stB i A. constructor; simpl.
- now rewrite (a_visited A).
- exact (a_stack A).
- exact (a_keys A).
- exact (a_graph A).
- exact (a_again A).
Qed.

Lemma for_successors_alike :
  forall rec : Key -> state Key -> option (state Key),
    (forall i stA stB a, alike G v w stA stB -> seen stA i = false ->
                         rec i stA = Some a ->
                         exists b, rec i stB = Some b /\ alike G v w a b) ->
    forall l stA stB a,
      alike G v w stA stB -> for_successors rec l stA = Some a ->
      exists b, for_successors rec l stB = Some b /\ alike G v w a b.
Proof.
intros rec Hrec l. induction l as [|i l IH]; intros stA stB a A E.
- simpl in E. injection E as <-. exists stB. split; [reflexivity | exact A].
- rewrite for_successors_cons in *. cbv zeta in *.
  rewrite (alike_seen i A). pose proof (alike_read i A) as A1.
  destruct (seen stA i) eqn:S; [now apply IH with (1 := A1)|].
  destruct (rec i _) as [a2|] eqn:R; [|discriminate].
  destruct (Hrec _ _ _ _ A1 (eq_trans (index_visited_snd _ _ _) S) R)
    as (b2 & Rb & A2).
  rewrite Rb. now apply IH with (1 := A2).
Qed.

Hypothesis edge_declared : In w (G v).

Lemma sort_util_alike : forall n x stA stB a,
    alike G v w stA stB -> seen stA x = false ->
    sort_util n x stA = Some a ->
    exists b, sort_util n x stB = Some b /\ alike G v w a b.
Proof.
induction n as [|n IH]; intros x stA stB a A Sx E; [discriminate|].
rewrite sort_util_S in *.
rewrite (a_graph A) in E. rewrite (a_again A).
set (stA2 := State (snd (index [] x (st_adj stA)))
                   (insert x true (st_visited stA)) (st_stack stA)) in *.
set (stB2 := State (snd (index [] x (st_adj stB)))
                   (insert x true (st_visited stB)) (st_stack stB)).
assert (A2 : alike G v w stA2 stB2).
{ constructor; unfold stA2, stB2; simpl.
  - now rewrite (a_visited A).
  - exact (a_stack A).
  - apply keys_index_same, (a_keys A).
  - intro k. simpl. rewrite index_successors_snd. apply (a_graph A).
  - intro k. simpl. rewrite index_successors_snd. apply (a_again A). }
destruct (for_successors (sort_util n) (G x) stA2) as [a3|] eqn:L;
  [|discriminate].
injection E as <-.
destruct (for_successors_alike (sort_util n) IH _ A2 L) as (b3 & Lb & A3).
assert (Push : alike G v w
                      (State (st_adj a3) (st_visited a3) (x :: st_stack a3))
                      (State (st_adj b3) (st_visited b3) (x :: st_stack b3))).
{ constructor; simpl.
  - exact (a_visited A3).
  - now rewrite (a_stack A3).
  - exact (a_keys A3).
  - exact (a_graph A3).
  - exact (a_again A3). }
unfold again. destruct (key_eqb x v) eqn:Ex.
- apply key_eqb_eq in Ex. subst x.
  rewrite for_successors_app, Lb, for_successors_cons. cbv zeta.
  assert (Sw : seen b3 w = true).
  { rewrite (alike_seen w A3).
    destruct (for_successors_spec (sort_util n)
                (fun i st st' Gs Si Ri => sort_util_spec n i Gs Si Ri)
                (G v) (a_graph A2) L) as (new & _ & _ & Hs & _).
    now apply Hs. }
  rewrite Sw. simpl for_successors.
  assert (Same : snd (index false w (st_visited b3)) = st_visited b3).
  { apply index_present. unfold seen, is_visited in Sw.
    destruct (find w (st_visited b3)) eqn:F; [|discriminate].
    now apply find_some_keys in F. }
  rewrite Same. eexists. split; [reflexivity | exact Push].
- rewrite Lb. eexists. split; [reflexivity | exact Push].
Qed.

Lemma sort_loop_alike : forall n f it stA stB a,
    alike G v w stA stB -> sort_loop n f it stA = Some a ->
    exists b, sort_loop n f it stB = Some b /\ alike G v w a b.
Proof.
induction n as [|n IH]; intros f it stA stB a A E.
- destruct it; [discriminate|]. simpl in E. injection E as <-.
  exists stB. split; [reflexivity | exact A].
- destruct it as [key|];
    [|simpl in E; injection E as <-; exists stB; split;
      [reflexivity | exact A]].
  rewrite sort_loop_Some in *. cbv zeta in *.
  rewrite (alike_seen key A). pose proof (alike_read key A) as A1.
  destruct (seen stA key) eqn:S.
  + rewrite (next_keys key _ _ (a_keys A1)).
    now apply IH with (1 := A1).
  + destruct (sort_util f key _) as [a2|] eqn:U; [|discriminate].
    destruct (sort_util_alike f key A1
                (eq_trans (index_visited_snd _ _ _) S) U)
      as (b2 & Ub & A2).
    rewrite Ub, (next_keys key _ _ (a_keys A2)).
    now apply IH with (1 := A2).
Qed.

End Repeated.

Section RepeatedTheorem.
Context {Key : Type} `{KeyOrder Key}.

(** X14.  Declaring again an edge that is already declared changes
    nothing in what [topological_sort] returns: the stack is the same
    with and without the repeated call of [precede], and so is the
    sequence returned by the vector adapter. *)
Theorem repeated_edge_same_order : forall (edges : list (Key * Key)) v w,
    In (v, w) edges ->
    exists adj1 adj2 s,
      topological_sort (build edges) = Some (adj1, s) /\
      topological_sort (build (edges ++ [(v, w)])) = Some (adj2, s) /\
      forall c,
        topological_sort_vector_sort (Adapter c (build edges)) =
        Some (Adapter c adj1, vector_merge s c) /\
        topological_sort_vector_sort
          (Adapter c (build (edges ++ [(v, w)]))) =
        Some (Adapter c adj2, vector_merge s c).
Proof.
intros edges v w E.
set (adjA := build edges).
assert (SA : sorted adjA) by apply sorted_build.
assert (SB : sorted (build (edges ++ [(v, w)]))) by apply sorted_build.
rewrite build_snoc in *. fold adjA in SB |- *.
set (adjB := precede v w adjA) in *.
set (F := Nat.max (length (vertices adjA)) (length (vertices adjB))).
destruct (topological_sort_sorted SA) as (adj1 & s & R1 & _).
pose proof (topological_sort_enough (fuel := F) SA (Nat.le_max_l _ _)) as EA.
pose proof (topological_sort_enough (fuel := F) SB (Nat.le_max_r _ _)) as EB.
rewrite R1 in EA. unfold topological_sort_fuel in EA, EB.
destruct (sort_loop F F (begin adjA) (State adjA [] [])) as [a|] eqn:LA;
  [|discriminate].
injection EA as <- <-.
assert (Iv : In v (keys adjA)) by (apply in_keys_build; now exists w).
assert (A0 : alike (successors adjA) v w
                   (State adjA [] []) (State adjB [] [])).
{ constructor; simpl.
  - reflexivity.
  - reflexivity.
  - unfold adjB. rewrite precede_eq, index_present by exact Iv.
    now apply keys_insert_present.
  - intro k. reflexivity.
  - intro k. unfold again, adjB. destruct (key_eqb k v) eqn:Ek.
    + apply key_eqb_eq in Ek. subst k. apply successors_precede_same.
    + apply key_eqb_neq in Ek. now apply successors_precede_other. }
assert (Ew : In w (successors adjA v)) by now apply in_successors_build.
destruct (sort_loop_alike Ew F F (begin adjA) A0 LA) as (b & LB & Ab).
pose proof (a_keys A0) as K0. simpl in K0.
rewrite (begin_keys _ _ K0) in EB.
rewrite LB in EB.
exists (st_adj a), (st_adj b), (st_stack a).
split; [exact R1|]. rewrite <- (a_stack Ab). split; [now symmetry|].
intro c. unfold topological_sort_vector_sort. simpl.
fold adjA adjB. rewrite <- EB, R1. rewrite (a_stack Ab). auto.
Qed.

End RepeatedTheorem.

(** ** The remaining examples of main.cpp *)

(** X13.  The outputs recorded in main.cpp: [STLMapExample], the second
    [sort] of [STLVectorExample] once Z has been pushed back, its vector
    of integers, and [STLArrayExample]; each result has the size of its
    container, as the assertions of main.cpp require. *)
Theorem main_examples :
  (exists a',
      topological_sort_map_sort (Adapter scenario_map (build scenario_edges))
      = Some (a',
              Returns [("F", 5); ("E", 4); ("A", 0); ("C", 2); ("D", 3);
                       ("B", 1); ("X", 100); ("Y", 101); ("Z", 102)])) /\
  (exists a1 r1 a2,
      topological_sort_vector_sort
        (Adapter scenario_vector (build (scenario_edges ++ [("Z", "F")]))) =
      Some (a1, Returns r1) /\
      topological_sort_vector_sort
        (Adapter (contents a1 ++ ["Z"]) (graph a1)) =
      Some (a2,
            Returns ["Z"; "F"; "F"; "F"; "E"; "E"; "C"; "C"; "D"; "D"; "B";
                     "B"; "A"; "A"; "A"]) /\
      length (contents a2) = 15) /\
  (exists a',
      topological_sort_vector_sort
        (Adapter example_ints (build example_int_edges)) =
      Some (a', Returns [9; 0; 8; 1; 7; 2; 6; 3; 5; 4])) /\
  (exists a',
      topological_sort_array_sort
        "" (Adapter example_array (build scenario_edges)) =
      Some (a', Returns ["F"; "E"; "A"; "C"; "D"; "B"; "X"; "Y"; "Z"])).
Proof.
split; [|split; [|split]].
- eexists. vm_compute. reflexivity.
- do 3 eexists. split; [vm_compute; reflexivity|].
  split; vm_compute; reflexivity.
- eexists. vm_compute. reflexivity.
- eexists. vm_compute. reflexivity.
Qed.

(** ** Instances of the further properties *)

Lemma scenario_build_sorted : sorted (build scenario_edges).
Proof. vm_compute. repeat constructor. Qed.

Lemma scenario_acyclic : acyclic_edges scenario_edges.
Proof. apply ranked_acyclic with scenario_rank. reflexivity. Qed.

Lemma scenario_map_nodup : NoDup (keys scenario_map).
Proof.
simpl. repeat (constructor; [simpl; intuition discriminate|]).
constructor.
Qed.

Lemma scenario_map_covers :
  forall k, is_vertex scenario_edges k -> In k (keys scenario_map).
Proof.
intros k (v & w & I & E). simpl in I.
repeat (destruct I as [I | I];
        [injection I as <- <-; destruct E as [-> | ->]; simpl; tauto|]).
destruct I.
Qed.

Lemma vector_sort_permutes_witness :
  sorted (build scenario_edges) /\
  exists a' r,
    topological_sort_vector_sort
      (Adapter scenario_vector (build scenario_edges)) =
    Some (a', Returns r) /\
    contents a' = scenario_vector /\ Permutation scenario_vector r.
Proof.
split; [exact scenario_build_sorted|].
exact (@vector_sort_permutes string _ (build scenario_edges)
         scenario_vector scenario_build_sorted).
Defined.

Lemma array_sort_fills_exactly_witness :
  sorted (build scenario_edges) /\
  exists a' r,
    topological_sort_array_sort "" (Adapter example_array
                                            (build scenario_edges)) =
    Some (a', Returns r) /\
    topological_sort_vector_sort (Adapter example_array
                                          (build scenario_edges)) =
    Some (a', Returns r) /\
    length r = length example_array /\ Permutation example_array r.
Proof.
split; [exact scenario_build_sorted|].
exact (@array_sort_fills_exactly string _ "" (build scenario_edges)
         example_array scenario_build_sorted).
Defined.

Lemma vector_sort_groups_duplicates_witness :
  sorted (build scenario_edges) /\
  exists a' l1 l2,
    topological_sort_vector_sort
      (Adapter scenario_vector (build scenario_edges)) =
    Some (a', Returns (l1 ++ repeat "A" (count "A" scenario_vector) ++ l2)) /\
    ~ In "A" l1 /\ ~ In "A" l2.
Proof.
split; [exact scenario_build_sorted|].
exact (@vector_sort_groups_duplicates string _ (build scenario_edges)
         scenario_vector "A" scenario_build_sorted).
Defined.

Lemma sequence_sort_respects_edges_witness :
  acyclic_edges scenario_edges /\ In ("E", "B") scenario_edges /\
  exists a' front back,
    topological_sort_vector_sort
      (Adapter scenario_vector (build scenario_edges)) =
    Some (a', Returns (front ++ back)) /\
    (forall dflt,
        topological_sort_array_sort
          dflt (Adapter scenario_vector (build scenario_edges)) =
        Some (a', Returns (front ++ back))) /\
    ~ In "B" front /\ ~ In "E" back.
Proof.
assert (I : In ("E", "B") scenario_edges) by (simpl; tauto).
split; [exact scenario_acyclic|]. split; [exact I|].
exact (@sequence_sort_respects_edges string _ scenario_edges
         scenario_vector "E" "B" scenario_acyclic I).
Defined.

Lemma sequence_sort_keeps_unconstrained_witness :
  NoDup ["X"; "Y"; "Z"] /\
  (forall k, In k ["X"; "Y"; "Z"] -> ~ is_vertex scenario_edges k) /\
  exists a',
    topological_sort_vector_sort
      (Adapter ["X"; "Y"; "Z"] (build scenario_edges)) =
    Some (a', Returns ["X"; "Y"; "Z"]) /\
    forall dflt,
      topological_sort_array_sort
        dflt (Adapter ["X"; "Y"; "Z"] (build scenario_edges)) =
      Some (a', Returns ["X"; "Y"; "Z"]).
Proof.
assert (N : NoDup ["X"; "Y"; "Z"]).
{ repeat (constructor; [simpl; intuition discriminate|]). constructor. }
assert (U : forall k, In k ["X"; "Y"; "Z"] -> ~ is_vertex scenario_edges k).
{ intros k I (v & w & Ie & E). simpl in I, Ie.
  destruct I as [<- | [<- | [<- | []]]];
    repeat (destruct Ie as [Ie | Ie];
            [injection Ie as <- <-; destruct E; discriminate|]);
    destruct Ie. }
split; [exact N|]. split; [exact U|].
exact (@sequence_sort_keeps_unconstrained string _ scenario_edges
         ["X"; "Y"; "Z"] N U).
Defined.

Lemma map_sort_permutes_witness :
  NoDup (keys scenario_map) /\
  (forall k, is_vertex scenario_edges k -> In k (keys scenario_map)) /\
  exists a' r,
    topological_sort_map_sort (Adapter scenario_map (build scenario_edges)) =
    Some (a', Returns r) /\
    topological_sort_unordered_map_sort
      (Adapter scenario_map (build scenario_edges)) =
    Some (a', Returns r) /\
    contents a' = scenario_map /\ Permutation scenario_map r.
Proof.
split; [exact scenario_map_nodup|]. split; [exact scenario_map_covers|].
exact (@map_sort_permutes string _ nat scenario_edges scenario_map
         scenario_map_nodup scenario_map_covers).
Defined.

Lemma map_sort_respects_edges_witness :
  acyclic_edges scenario_edges /\ In ("C", "D") scenario_edges /\
  NoDup (keys scenario_map) /\
  (forall k, is_vertex scenario_edges k -> In k (keys scenario_map)) /\
  exists a' front back,
    topological_sort_map_sort (Adapter scenario_map (build scenario_edges)) =
    Some (a', Returns (front ++ back)) /\
    In "C" (keys front) /\ ~ In "D" (keys front) /\
    In "D" (keys back) /\ ~ In "C" (keys back).
Proof.
assert (I : In ("C", "D") scenario_edges) by (simpl; tauto).
split; [exact scenario_acyclic|]. split; [exact I|].
split; [exact scenario_map_nodup|]. split; [exact scenario_map_covers|].
exact (@map_sort_respects_edges string _ nat scenario_edges scenario_map
         "C" "D" scenario_acyclic I scenario_map_nodup scenario_map_covers).
Defined.

Lemma map_sort_without_edges_witness :
  NoDup (keys scenario_map) /\
  topological_sort_map_sort (Adapter scenario_map (build [])) =
  Some (Adapter scenario_map [], Returns scenario_map) /\
  topological_sort_unordered_map_sort (Adapter scenario_map (build [])) =
  Some (Adapter scenario_map [], Returns scenario_map).
Proof.
split; [exact scenario_map_nodup|].
exact (@map_sort_without_edges string _ nat scenario_map scenario_map_nodup).
Defined.

Lemma repeated_edge_same_order_witness :
  In ("E", "A") scenario_edges /\
  exists adj1 adj2 s,
    topological_sort (build scenario_edges) = Some (adj1, s) /\
    topological_sort (build (scenario_edges ++ [("E", "A")])) =
    Some (adj2, s).
Proof.
assert (I : In ("E", "A") scenario_edges) by (simpl; tauto).
split; [exact I|].
destruct (@repeated_edge_same_order string _ scenario_edges "E" "A" I)
  as (adj1 & adj2 & s & R1 & R2 & _).
exists adj1, adj2, s. split; [exact R1 | exact R2].
Defined.
